(** * DubbingBotV1: the dialogue-timeline audio synthesis engine

    A shallow embedding of the chunker ([VideoChunker.ts]), the mixer and
    the peak analyzer ([AudioMixer.ts]), the translation batcher
    ([TranslationOptimizer.ts]) and the PCM codec ([useVideoProcessor.ts]).

    Numbers.  A JavaScript number is an IEEE double.  Every finite double
    is a rational, so times, thresholds and PCM samples are modelled as
    [Q], which keeps comparisons, [floor], [ceil] and integer conversion
    executable.  The result of a double operation is rounded as IEEE 754
    does ([roundDouble]: to the nearest double, ties to even) where the
    chunker compares a difference of times with the gap threshold and
    where the mixer takes the floor or the ceiling of a product with
    the sample rate; overflow to an infinity is not modelled.  The
    mixer's amplitudes go through [Math.sqrt], so they are modelled as
    real numbers [R], without rounding.  NaN and the infinities
    appear only where a function can produce them from finite input
    (the analyzer's divisions), and are modelled there by [jsnum]. *)

From Stdlib Require Import List ZArith QArith Qround Qabs Bool String Ascii.
From Stdlib Require Import Permutation Sorted Reals.
From Stdlib Require Import Lia Psatz.
Import ListNotations.

Set Implicit Arguments.

(** ** Comparisons on rationals, as booleans *)

Definition Qlt_bool (a b : Q) : bool := negb (Qle_bool b a).

(** [Math.max] on two finite numbers. *)
Definition qmax (a b : Q) : Q := if Qle_bool a b then b else a.

(** ** Double arithmetic

    The result of [+], [-] and [*] on doubles is the exact result
    rounded to the nearest double, ties to the even significand: 53
    significant bits, and no bit below 2^-1074. *)

(** The integer nearest to [num / den], ties to even ([0 <= num],
    [0 < den]). *)
Definition roundHalfEven (num den : Z) : Z :=
  let q := (num / den)%Z in
  let r := (num mod den)%Z in
  match (2 * r ?= den)%Z with
  | Lt => q
  | Gt => (q + 1)%Z
  | Eq => if Z.even q then q else (q + 1)%Z
  end.

(** [floor (log2 (a / b))] for positive [a] and [b]. *)
Definition floorLog2 (a b : Z) : Z :=
  let l := (Z.log2 a - Z.log2 b)%Z in
  if (if (0 <=? l)%Z then (b * 2 ^ l <=? a)%Z else (b <=? a * 2 ^ (- l))%Z)
  then l else (l - 1)%Z.

(** The double nearest to [x].  [e] is the exponent of the last bit
    kept: 52 below the leading bit of [x], and not below -1074; the
    magnitude is rounded to a multiple of [2 ^ e]. *)
Definition roundDouble (x : Q) : Q :=
  let a := Z.abs (Qnum x) in
  let b := Zpos (Qden x) in
  if (a =? 0)%Z then 0 else
  let e := Z.max (floorLog2 a b - 52) (-1074) in
  let r :=
    if (0 <=? e)%Z
    then inject_Z (roundHalfEven a (b * 2 ^ e) * 2 ^ e)
    else Qmake (roundHalfEven (a * 2 ^ (- e)) b) (Z.to_pos (2 ^ (- e))) in
  Qred (if (Qnum x <? 0)%Z then - r else r).

(** [a * b] and [a - b] on doubles. *)
Definition fmul (a b : Q) : Q := roundDouble (a * b).
Definition fsub (a b : Q) : Q := roundDouble (a - b).

(** ** Data model ([types.ts]) *)

Record DialogueSegment := mkSegment {
  startTime : Q;
  endTime : Q;
  transcription : string;
  speakerId : string
}.

Record TranslatedSegment := mkTranslated {
  t_speakerId : string;
  t_text : string;
  t_startTime : Q;
  t_endTime : Q
}.

(** * VideoChunker.ts *)

Module VideoChunker.

Inductive ChunkType := SingleSpeaker | MultiSpeaker | Overlap.

Record VideoChunk := mkChunk {
  c_startTime : Q;
  c_endTime : Q;
  segments : list DialogueSegment;
  chunkType : ChunkType;
  speakers : list string
}.

(** [[...segments].sort((a, b) => a.startTime - b.startTime)].  The
    comparator is a consistent order on finite numbers and
    [Array.prototype.sort] is stable, so the result is the stable sort by
    [startTime]; it is computed here by insertion. *)
Fixpoint insertSegment (x : DialogueSegment) (l : list DialogueSegment)
  : list DialogueSegment :=
  match l with
  | [] => [x]
  | y :: l' =>
      if Qle_bool (startTime x) (startTime y) then x :: y :: l'
      else y :: insertSegment x l'
  end.

Fixpoint sortSegments (l : list DialogueSegment) : list DialogueSegment :=
  match l with
  | [] => []
  | x :: l' => insertSegment x (sortSegments l')
  end.

(** [[...new Set(xs)]]: distinct elements in order of first occurrence. *)
Fixpoint setAdd (x : string) (s : list string) : list string :=
  match s with
  | [] => [x]
  | y :: s' => if String.eqb x y then s else y :: setAdd x s'
  end.

Definition newSet (xs : list string) : list string :=
  fold_left (fun s x => setAdd x s) xs [].

(** [Math.max(...xs)] on a non-empty list.  On the empty list JavaScript
    gives -Infinity; both call sites of [createChunk] are guarded by
    [currentChunk.length > 0], so that case does not arise. *)
Definition maxOf (xs : list Q) : Q :=
  match xs with
  | [] => 0
  | x :: xs' => fold_left qmax xs' x
  end.

Definition createChunk (segs : list DialogueSegment) (start : Q)
  (hasOverlap : bool) : VideoChunk :=
  let spk := newSet (map speakerId segs) in
  let e := maxOf (map endTime segs) in
  let ty :=
    if hasOverlap then Overlap
    else if (1 <? List.length spk)%nat then MultiSpeaker
    else SingleSpeaker in
  mkChunk start e segs ty spk.

(** The mutable variables of the loop in [chunkVideo]. *)
Record LoopState := mkState {
  chunks : list VideoChunk;
  currentChunk : list DialogueSegment;
  currentStartTime : Q;
  currentSpeakers : list string;
  hasOverlap : bool
}.

(** The three tests of one iteration; [prev] is [sorted[i - 1]], which is
    [undefined] (falsy) in the first iteration. *)
Definition isOverlap (prev : option DialogueSegment) (segment : DialogueSegment)
  : bool :=
  match prev with
  | None => false
  | Some p => Qlt_bool (startTime segment) (endTime p)
  end.

Definition hasGap (gapThreshold : Q) (prev : option DialogueSegment)
  (segment : DialogueSegment) : bool :=
  match prev with
  | None => false
  | Some p => Qlt_bool gapThreshold (fsub (startTime segment) (endTime p))
  end.

Definition speakerChanged (cur : list DialogueSegment)
  (segment : DialogueSegment) : bool :=
  match rev cur with
  | [] => false
  | lastSeg :: _ => negb (String.eqb (speakerId segment) (speakerId lastSeg))
  end.

Definition shouldNewChunk (gapThreshold : Q) (prev : option DialogueSegment)
  (segment : DialogueSegment) (st : LoopState) : bool :=
  (speakerChanged (currentChunk st) segment && negb (isOverlap prev segment))
  || hasGap gapThreshold prev segment
  || (isOverlap prev segment && negb (hasOverlap st)).

Definition nonEmpty {A} (l : list A) : bool :=
  match l with [] => false | _ => true end.

Definition chunkStep (gapThreshold : Q) (prev : option DialogueSegment)
  (segment : DialogueSegment) (st : LoopState) : LoopState :=
  if shouldNewChunk gapThreshold prev segment st && nonEmpty (currentChunk st)
  then
    mkState
      (chunks st ++
         [createChunk (currentChunk st) (currentStartTime st) (hasOverlap st)])
      [segment]
      (startTime segment)
      (newSet [speakerId segment])
      false
  else
    mkState
      (chunks st)
      (currentChunk st ++ [segment])
      (currentStartTime st)
      (setAdd (speakerId segment) (currentSpeakers st))
      (if isOverlap prev segment then true else hasOverlap st).

Fixpoint chunkLoop (gapThreshold : Q) (prev : option DialogueSegment)
  (rest : list DialogueSegment) (st : LoopState) : LoopState :=
  match rest with
  | [] => st
  | segment :: rest' =>
      chunkLoop gapThreshold (Some segment) rest'
        (chunkStep gapThreshold prev segment st)
  end.

Definition finish (st : LoopState) : list VideoChunk :=
  if nonEmpty (currentChunk st)
  then chunks st ++
         [createChunk (currentChunk st) (currentStartTime st) (hasOverlap st)]
  else chunks st.

(** [sorted[0].startTime]; read on a non-empty array only. *)
Definition headStart (l : list DialogueSegment) : Q :=
  match l with
  | [] => 0
  | s :: _ => startTime s
  end.

Definition chunkVideo (segs : list DialogueSegment) (gapThreshold : Q)
  : list VideoChunk :=
  match segs with
  | [] => []
  | _ :: _ =>
      let sorted := sortSegments segs in
      finish
        (chunkLoop gapThreshold None sorted
           (mkState [] [] (headStart sorted) [] false))
  end.

(** The parameter's default value. *)
Definition defaultGapThreshold : Q := 1 # 2.

(** Two chunks overlap when their half-open ranges
    [[c_startTime, c_endTime)] share a point. *)
Definition chunksIntersect (c d : VideoChunk) : bool :=
  Qlt_bool (qmax (c_startTime c) (c_startTime d))
           (if Qle_bool (c_endTime c) (c_endTime d)
            then c_endTime c else c_endTime d).

(** Everything the loop has consumed so far, in order. *)
Definition flatten (st : LoopState) : list DialogueSegment :=
  (List.concat (map segments (chunks st)) ++ currentChunk st)%list.

(** Order and ties of the sort. *)
Definition startsNoLater (a b : DialogueSegment) : Prop :=
  (startTime a <= startTime b)%Q.

Definition startsAt (t : Q) (s : DialogueSegment) : bool :=
  Qeq_bool (startTime s) t.

(** No segment of the list starts before its predecessor ends. *)
Fixpoint noAdjacentOverlap (l : list DialogueSegment) : bool :=
  match l with
  | [] => true
  | a :: l' =>
      match l' with
      | [] => true
      | b :: _ => negb (Qlt_bool (startTime b) (endTime a)) && noAdjacentOverlap l'
      end
  end.

(** [a] has ended when [b] starts. *)
Definition endsBefore (a b : DialogueSegment) : Prop :=
  (endTime a <= startTime b)%Q.

(** What every chunk built by the loop satisfies. *)
Record wfChunk (c : VideoChunk) : Prop := mkWf {
  wf_nonempty : segments c <> [];
  wf_start : c_startTime c = headStart (segments c);
  wf_end : c_endTime c = maxOf (map endTime (segments c));
  wf_type : chunkType c <> Overlap;
  wf_inner : noAdjacentOverlap (segments c) = true
}.

(** The loop invariant once a previous segment [p] exists. *)
Record loopInv (p : DialogueSegment) (st : LoopState) : Prop := mkInv {
  inv_flag : hasOverlap st = false;
  inv_last : exists l, currentChunk st = (l ++ [p])%list;
  inv_start : currentStartTime st = headStart (currentChunk st);
  inv_inner : noAdjacentOverlap (currentChunk st) = true;
  inv_chunks : Forall wfChunk (chunks st)
}.

(** The fields of a chunk other than its classification. *)
Definition chunkExtent (c : VideoChunk)
  : Q * Q * list DialogueSegment * list string :=
  (c_startTime c, c_endTime c, segments c, speakers c).

(** No two chunks of the list have intersecting ranges. *)
Fixpoint pairwiseDisjoint (cs : list VideoChunk) : bool :=
  match cs with
  | [] => true
  | c :: cs' =>
      forallb (fun d => negb (chunksIntersect c d)) cs' && pairwiseDisjoint cs'
  end.

(** The inputs of the specification's two chunking examples. *)
Definition overlapExample (ta tb : string) : list DialogueSegment :=
  [mkSegment 0 3 ta "A"; mkSegment 2 4 tb "B"].

Definition gapExample : list DialogueSegment :=
  [mkSegment 0 2 "one" "A"; mkSegment 2 4 "two" "A"; mkSegment 5 7 "three" "B"].

(** ** validateChunks and optimizeChunkOrder *)

(** What [validateChunks] writes to the console. *)
Inductive LogEvent :=
| ErrorOutside (s : DialogueSegment)
| WarnGap (gap : Q).

Definition tolerance : Q := 1 # 10.

(** The test of the inner loop of [validateChunks]. *)
Definition outsideChunk (c : VideoChunk) (s : DialogueSegment) : bool :=
  Qlt_bool (startTime s) (c_startTime c - tolerance)
  || Qlt_bool (c_endTime c + tolerance) (endTime s).

(** The loop of [validateChunks] from chunk [i] on: the returned
    boolean and the console output.  The first segment outside its
    chunk ends the function with [false]; a gap above one second to the
    next chunk is only reported. *)
Fixpoint validateFrom (chunks : list VideoChunk) (log : list LogEvent)
  : bool * list LogEvent :=
  match chunks with
  | [] => (true, log)
  | c :: rest =>
      match find (outsideChunk c) (segments c) with
      | Some s => (false, log ++ [ErrorOutside s])
      | None =>
          let log' :=
            match rest with
            | next :: _ =>
                let gap := c_startTime next - c_endTime c in
                if Qlt_bool 1 gap then log ++ [WarnGap gap] else log
            | [] => log
            end in
          validateFrom rest log'
      end
  end.

Definition validateChunks (chunks : list VideoChunk) : bool * list LogEvent :=
  validateFrom chunks [].

Definition isError (e : LogEvent) : bool :=
  match e with ErrorOutside _ => true | WarnGap _ => false end.

(** [c.chunkType === t] *)
Definition typeEqb (a b : ChunkType) : bool :=
  match a, b with
  | SingleSpeaker, SingleSpeaker => true
  | MultiSpeaker, MultiSpeaker => true
  | Overlap, Overlap => true
  | _, _ => false
  end.

Definition hasType (t : ChunkType) (c : VideoChunk) : bool :=
  typeEqb (chunkType c) t.

Definition optimizeChunkOrder (chunks : list VideoChunk) : list VideoChunk :=
  filter (hasType SingleSpeaker) chunks
  ++ filter (hasType MultiSpeaker) chunks
  ++ filter (hasType Overlap) chunks.

(** ** Runs of segments *)

(** [s] stays in the chunk of its predecessor [p]: same speaker, no
    overlap, and the difference [s.startTime - p.endTime], as the
    double subtraction gives it, not above the threshold. *)
Definition joins (gapThreshold : Q) (p s : DialogueSegment) : bool :=
  String.eqb (speakerId s) (speakerId p)
  && negb (Qlt_bool (startTime s) (endTime p))
  && negb (Qlt_bool gapThreshold (fsub (startTime s) (endTime p))).

(** Every element of the list is related to its successor. *)
Fixpoint adjacentAll {A} (f : A -> A -> bool) (l : list A) : bool :=
  match l with
  | [] => true
  | a :: l' =>
      match l' with
      | [] => true
      | b :: _ => f a b && adjacentAll f l'
      end
  end.

Definition lastOf {A} (l : list A) : option A :=
  match rev l with
  | [] => None
  | a :: _ => Some a
  end.

(** Where one run ends and the next begins, the last element of the one
    is not related to the first of the other. *)
Fixpoint boundariesSplit {A} (f : A -> A -> bool) (runs : list (list A))
  : bool :=
  match runs with
  | [] => true
  | r :: rest =>
      match rest with
      | [] => true
      | r' :: _ =>
          match lastOf r, r' with
          | Some a, b :: _ => negb (f a b) && boundariesSplit f rest
          | _, _ => false
          end
      end
  end.

(** The maximal runs of [joins], computed from the right. *)
Fixpoint groupRuns (gapThreshold : Q) (l : list DialogueSegment)
  : list (list DialogueSegment) :=
  match l with
  | [] => []
  | p :: rest =>
      match groupRuns gapThreshold rest with
      | (s :: run) :: runs =>
          if joins gapThreshold p s then (p :: s :: run) :: runs
          else [p] :: (s :: run) :: runs
      | _ => [[p]]
      end
  end.

(** The chunk made of one run of a single speaker. *)
Definition runChunk (run : list DialogueSegment) : VideoChunk :=
  mkChunk (headStart run) (maxOf (map endTime run)) run SingleSpeaker
    (match run with [] => [] | s :: _ => [speakerId s] end).

(** The loop invariant that carries the speaker of the open chunk. *)
Record runInv (p : DialogueSegment) (st : LoopState) : Prop := mkRunInv {
  run_flag : hasOverlap st = false;
  run_last : exists l, currentChunk st = (l ++ [p])%list;
  run_start : currentStartTime st = headStart (currentChunk st);
  run_speaker : Forall (fun s => speakerId s = speakerId p) (currentChunk st)
}.

(** [l] in front of the first run. *)
Definition prependRun {A} (l : list A) (runs : list (list A)) : list (list A) :=
  match runs with
  | [] => [l]
  | r :: rest => (l ++ r)%list :: rest
  end.

End VideoChunker.

(** * Typed arrays

    A [Float32Array] has a fixed length.  Reading an index outside
    [0 .. length-1] gives [undefined]; writing there does nothing and
    raises nothing. *)

Section TypedArray.

Variable A : Type.

Fixpoint updateAt (n : nat) (v : A) (a : list A) : list A :=
  match a, n with
  | [], _ => []
  | _ :: a', O => v :: a'
  | x :: a', S n' => x :: updateAt n' v a'
  end.

Definition taGet (a : list A) (idx : Z) : option A :=
  if (idx <? 0)%Z then None else nth_error a (Z.to_nat idx).

Definition taSet (a : list A) (idx : Z) (v : A) : list A :=
  if (idx <? 0)%Z then a else updateAt (Z.to_nat idx) v a.

End TypedArray.

(** * AudioMixer.ts *)

Module AudioMixer.

Local Open Scope R_scope.

Definition targetSampleRate : Q := 24000.

(** One element of the [buffers] argument; [buffer] is the data of
    channel 0, [volume] is optional. *)
Record Clip := mkClip {
  buffer : list R;
  clip_startTime : Q;
  clip_speakerId : string;
  volume : option R
}.

Record Channel := mkChannel {
  ch_start : Z;
  ch_end : Z;
  ch_speakerId : string
}.

(** [audioContext.createBuffer(1, n, rate)] followed by [fill(0)]: [n]
    zero samples.  The audio context raises NotSupportedError for a
    length of 0, which is [None] here; a negative length, which no
    duration of a recording gives, is taken to be refused as well.  A
    length too large to allocate is not modelled. *)
Definition createBuffer (n : Z) : option (list R) :=
  if (0 <? n)%Z then Some (repeat 0 (Z.to_nat n)) else None.

Definition calculateNormalizedGain (sourceCount : nat) (userVolume : option R)
  : R :=
  let baseGain := 1 / sqrt (INR sourceCount) in
  baseGain * match userVolume with Some v => v | None => 1 end.

(** [outputData[outputIndex] += v]: a read followed by a write.  Outside
    the array the read is [undefined], the sum is NaN and the write is
    discarded. *)
Definition addAt (out : list R) (outputIndex : Z) (v : R) : list R :=
  match taGet out outputIndex with
  | Some x => taSet out outputIndex (x + v)
  | None => out
  end.

(** The inner loop of [mixAudioBuffers], from source index [i] on;
    [src] is [sourceData] from that index. *)
Fixpoint mixInto (out : list R) (src : list R) (startSample i : Z) (gain : R)
  : list R :=
  match src with
  | [] => out
  | s :: src' =>
      let outputIndex := (startSample + i)%Z in
      let out' :=
        if (outputIndex <? Z.of_nat (List.length out))%Z
        then addAt out outputIndex (s * gain)
        else out in
      mixInto out' src' startSample (i + 1)%Z gain
  end.

(** [Math.floor(startTime * this.targetSampleRate)]: the floor of the
    double product. *)
Definition startSampleOf (c : Clip) : Z :=
  Qfloor (fmul (clip_startTime c) targetSampleRate).

(** One iteration of the loop over [buffers]: the state is
    [(outputData, timelineChannels)], [n] is [buffers.length]. *)
Definition mixClip (n : nat) (st : list R * list Channel) (c : Clip)
  : list R * list Channel :=
  let '(out, timeline) := st in
  let startSample := startSampleOf c in
  let sourceData := buffer c in
  let normalizedGain := calculateNormalizedGain n (volume c) in
  (mixInto out sourceData startSample 0 normalizedGain,
   timeline ++
     [mkChannel startSample
        (startSample + Z.of_nat (List.length sourceData))
        (clip_speakerId c)]).

(** Steps 1 and 2: allocation and accumulation.  Nothing is done when
    the allocation raises. *)
Definition accumulate (buffers : list Clip) (totalDuration : Q)
  : option (list R * list Channel) :=
  match createBuffer (Qceiling (fmul totalDuration targetSampleRate)) with
  | None => None
  | Some outputData =>
      Some (fold_left (mixClip (List.length buffers)) buffers (outputData, []))
  end.

Definition threshold : R := 8 / 10.
Definition knee : R := 1 / 10.
Definition ratio : R := 12.

(** The body of the loop of [applySoftLimiter], on one sample. *)
Definition softLimit (sample : R) : R :=
  let absSample := Rabs sample in
  if Rlt_dec (threshold - knee / 2) absSample then
    let gain :=
      if Rlt_dec absSample threshold then
        let kneeAmount := (absSample - (threshold - knee / 2)) / knee in
        let hardKneeGain := 1 + (ratio - 1) * kneeAmount in
        1 + (hardKneeGain - 1) * kneeAmount
      else
        (threshold + (absSample - threshold) / ratio) / absSample in
    sample * gain
  else sample.

Definition applySoftLimiter (audioData : list R) : list R :=
  map softLimit audioData.

Definition covers (i : Z) (ch : Channel) : bool :=
  ((ch_start ch <=? i) && (i <? ch_end ch))%Z.

Definition overlappingChannels (timeline : list Channel) (i : Z) : nat :=
  List.length (filter (covers i) timeline).

Definition overlapThreshold : R := 5 / 10.
Definition overlapRatio : R := 4.

(** The body of the loop of [compressOverlapRegions], at index [i].
    The attack and release lengths computed before the loop are not
    used by it. *)
Definition compressSample (timeline : list Channel) (i : Z) (sample : R) : R :=
  if (1 <? overlappingChannels timeline i)%nat then
    let absSample := Rabs sample in
    if Rlt_dec overlapThreshold absSample then
      let gain := overlapThreshold + (absSample - overlapThreshold) / overlapRatio in
      (sample / absSample) * gain
    else sample
  else sample.

Fixpoint compressFrom (timeline : list Channel) (i : Z) (audioData : list R)
  : list R :=
  match audioData with
  | [] => []
  | s :: rest => compressSample timeline i s :: compressFrom timeline (i + 1) rest
  end.

Definition compressOverlapRegions (audioData : list R) (timeline : list Channel)
  : list R :=
  compressFrom timeline 0 audioData.

(** The data of the returned buffer, or [None] when the call raises. *)
Definition mixAudioBuffers (buffers : list Clip) (totalDuration : Q)
  : option (list R) :=
  match accumulate buffers totalDuration with
  | None => None
  | Some (outputData, timelineChannels) =>
      Some (compressOverlapRegions (applySoftLimiter outputData) timelineChannels)
  end.

(** ** analyzeAudioPeaks

    The quotients of this function can leave the finite numbers, so its
    results are JavaScript numbers with the IEEE special values.  Zero
    stands for +0: the only zeros that reach a divisor here come from
    [Math.abs], [Math.sqrt] and an array length. *)
Inductive jsnum := Fin (x : R) | PosInf | NegInf | NaN.

Definition jdiv (a b : jsnum) : jsnum :=
  match a, b with
  | NaN, _ | _, NaN => NaN
  | Fin x, Fin y =>
      if Req_dec_T y 0 then
        if Req_dec_T x 0 then NaN
        else if Rlt_dec 0 x then PosInf else NegInf
      else Fin (x / y)
  | Fin _, _ => Fin 0
  | PosInf, Fin y => if Rle_dec 0 y then PosInf else NegInf
  | NegInf, Fin y => if Rle_dec 0 y then NegInf else PosInf
  | _, _ => NaN
  end.

Definition jsqrt (a : jsnum) : jsnum :=
  match a with
  | Fin x => if Rlt_dec x 0 then NaN else Fin (sqrt x)
  | PosInf => PosInf
  | _ => NaN
  end.

Definition jmax (a b : jsnum) : jsnum :=
  match a, b with
  | NaN, _ | _, NaN => NaN
  | PosInf, _ | _, PosInf => PosInf
  | NegInf, x | x, NegInf => x
  | Fin x, Fin y => Fin (Rmax x y)
  end.

Definition jmin (a b : jsnum) : jsnum :=
  match a, b with
  | NaN, _ | _, NaN => NaN
  | NegInf, _ | _, NegInf => NegInf
  | PosInf, x | x, PosInf => x
  | Fin x, Fin y => Fin (Rmin x y)
  end.

Record Analysis := mkAnalysis {
  peak : jsnum;
  rms : jsnum;
  recommendedGain : jsnum
}.

(** The loop over the samples: [(peak, sum)]. *)
Definition peakAndSum (data : list R) : R * R :=
  fold_left
    (fun '(peak, sum) sample =>
       let absSample := Rabs sample in
       (Rmax peak absSample, sum + absSample * absSample))
    data (0, 0).

Definition analyzeClip (data : list R) : Analysis :=
  let '(peak, sum) := peakAndSum data in
  let rms := jsqrt (jdiv (Fin sum) (Fin (INR (List.length data)))) in
  let recommendedGain := jdiv (Fin (95 / 100)) (jmax (Fin peak) rms) in
  mkAnalysis (Fin peak) rms (jmin recommendedGain (Fin (15 / 10))).

(** [Map.prototype.set]: an existing key keeps its position. *)
Fixpoint mapSet {V} (k : string) (v : V) (m : list (string * V))
  : list (string * V) :=
  match m with
  | [] => [(k, v)]
  | (k', v') :: m' =>
      if String.eqb k k' then (k, v) :: m' else (k', v') :: mapSet k v m'
  end.

Fixpoint mapGet {V} (k : string) (m : list (string * V)) : option V :=
  match m with
  | [] => None
  | (k', v) :: m' => if String.eqb k k' then Some v else mapGet k m'
  end.

Definition analyzeAudioPeaks (buffers : list (list R * string))
  : list (string * Analysis) :=
  fold_left
    (fun analysis '(data, speakerId) => mapSet speakerId (analyzeClip data) analysis)
    buffers [].

(** The sample range of a clip lies wholly outside a buffer of [len]
    samples. *)
Definition outsideBuffer (len : nat) (c : Clip) : Prop :=
  (startSampleOf c + Z.of_nat (List.length (buffer c)) <= 0)%Z
  \/ (Z.of_nat len <= startSampleOf c)%Z.

(** Index [k] is one of the positions where the clip is placed. *)
Definition placedAt (c : Clip) (k : nat) : bool :=
  ((startSampleOf c <=? Z.of_nat k)
   && (Z.of_nat k <? startSampleOf c + Z.of_nat (List.length (buffer c))))%Z.

(** A clip of [len] samples of amplitude 1.0 and volume 1, given or by
    default. *)
Definition unitClip (len : nat) (c : Clip) : Prop :=
  buffer c = repeat 1 len
  /\ match volume c with Some v => v = 1 | None => True end.

(** The clip's range lies inside a buffer of [len] samples. *)
Definition insideBuffer (len : nat) (c : Clip) : Prop :=
  (0 <= startSampleOf c)%Z
  /\ (startSampleOf c + Z.of_nat (List.length (buffer c)) <= Z.of_nat len)%Z.

Definition disjointClips (c d : Clip) : Prop :=
  (startSampleOf c + Z.of_nat (List.length (buffer c)) <= startSampleOf d)%Z
  \/ (startSampleOf d + Z.of_nat (List.length (buffer d)) <= startSampleOf c)%Z.

(** Example clips and durations.  The times are doubles (binary
    fractions): [- 1/32768] gives start sample -1, [1/4096] start
    sample 5, [-1] start sample -24000; [1/32768] seconds allocate one
    sample, [1/2048] seconds twelve. *)
Definition loudClip : Clip := mkClip [1] 0 "A" (Some 4).
Definition quietClip : Clip := mkClip [1 / 2] 0 "A" None.
Definition earlyClip : Clip := mkClip [1; 1] (- (1 # 32768)) "A" None.
Definition lateClip : Clip := mkClip [1; 1] 2 "A" None.
Definition pastClip : Clip := mkClip [1; 1] (- 1) "A" None.
Definition firstUnit : Clip := mkClip [1; 1] 0 "A" (Some 1).
Definition secondUnit : Clip := mkClip [1; 1] (1 # 4096) "B" None.

Definition oneSample : Q := 1 # 32768.
Definition twelveSamples : Q := 1 # 2048.

(** ** The mix, sample by sample *)

(** The length asked of the allocator: the ceiling of the double
    product. *)
Definition bufferSize (totalDuration : Q) : nat :=
  Z.to_nat (Qceiling (fmul totalDuration targetSampleRate)).

(** The entry a clip leaves in [timelineChannels]. *)
Definition channelOf (c : Clip) : Channel :=
  mkChannel (startSampleOf c)
    (startSampleOf c + Z.of_nat (List.length (buffer c)))
    (clip_speakerId c).

(** What a clip adds at index [k] of the buffer when [n] clips are
    mixed: the source sample that lands there, times the volume (1 when
    none is given) over the square root of [n]. *)
Definition contribution (n : nat) (c : Clip) (k : nat) : R :=
  if placedAt c k
  then nth (Z.to_nat (Z.of_nat k - startSampleOf c)) (buffer c) 0
       * (match volume c with Some v => v | None => 1 end / sqrt (INR n))
  else 0.

(** The magnitude the limiter gives to a sample of magnitude [a]. *)
Definition limitedMagnitude (a : R) : R :=
  if Rle_dec a (3 / 4) then a
  else if Rlt_dec a (8 / 10)
       then a * (1 + 11 * ((a - 3 / 4) * 10) * ((a - 3 / 4) * 10))
       else 8 / 10 + (a - 8 / 10) / 12.

(** The magnitude the overlap compressor gives to a sample of magnitude
    [a] at an index covered by [covering] clips. *)
Definition compressedMagnitude (covering : nat) (a : R) : R :=
  if (1 <? covering)%nat
  then if Rlt_dec (1 / 2) a then 1 / 2 + (a - 1 / 2) / 4 else a
  else a.

(** The data of the last buffer of a speaker, the one whose analysis
    stays in the map. *)
Fixpoint lastDataOf (speaker : string) (buffers : list (list R * string))
  : option (list R) :=
  match buffers with
  | [] => None
  | (data, sp) :: rest =>
      match lastDataOf speaker rest with
      | Some d => Some d
      | None => if String.eqb speaker sp then Some data else None
      end
  end.

Definition twoTone : list R := [1 / 2; - (1 / 4)].

End AudioMixer.

(** * TranslationOptimizer.ts *)

Module TranslationOptimizer.

Local Open Scope string_scope.

Record SpeakerInfo := mkInfo {
  gender : string;
  age : string;
  emotion : string
}.

Record Group := mkGroup {
  g_speakerId : string;
  g_startTime : Q;
  g_segments : list DialogueSegment
}.

(** [currentGroup[0].startTime]; a group that is pushed always holds its
    first segment. *)
Definition firstStart (g : list DialogueSegment) : Q :=
  match g with
  | [] => 0%Q
  | s :: _ => startTime s
  end.

(** The mutable variables of the loop in [groupSegmentsBySpeaker];
    [currentGroup] is [null] before the first group is opened. *)
Record GroupState := mkGroupState {
  groups : list Group;
  currentGroup : option (list DialogueSegment);
  currentSpeakerId : string
}.

Definition pushCurrent (st : GroupState) : list Group :=
  match currentGroup st with
  | Some g => (groups st ++ [mkGroup (currentSpeakerId st) (firstStart g) g])%list
  | None => groups st
  end.

Definition groupStep (st : GroupState) (segment : DialogueSegment)
  : GroupState :=
  if negb (String.eqb (speakerId segment) (currentSpeakerId st)) then
    mkGroupState (pushCurrent st) (Some [segment]) (speakerId segment)
  else
    (* currentGroup?.push(segment) *)
    mkGroupState (groups st)
      (match currentGroup st with
       | Some g => Some (g ++ [segment])%list
       | None => None
       end)
      (currentSpeakerId st).

Definition groupSegmentsBySpeaker (segs : list DialogueSegment) : list Group :=
  pushCurrent (fold_left groupStep segs (mkGroupState [] None "")).

(** [xs.join(' ')] *)
Fixpoint join (sep : string) (xs : list string) : string :=
  match xs with
  | [] => ""
  | [x] => x
  | x :: rest => x ++ sep ++ join sep rest
  end.

(** [segments.filter(s => ...)] for one group.  A group object is not an
    element of [segments], so [segments.indexOf(group)] is [-1] and the
    two index tests read [indexOf(s) === -2] and [indexOf(s) === 0]; the
    segment objects being distinct, the latter holds at position 0
    only. *)
Fixpoint contextFrom (pos : Z) (group : Group) (segs : list DialogueSegment)
  : list DialogueSegment :=
  match segs with
  | [] => []
  | s :: rest =>
      let indexOfGroup := (-1)%Z in
      let keep :=
        Qlt_bool (Qabs (startTime s - g_startTime group)) 30
        && (String.eqb (speakerId s) (g_speakerId group)
            || (pos =? indexOfGroup - 1)%Z
            || (pos =? indexOfGroup + 1)%Z) in
      if keep then s :: contextFrom (pos + 1) group rest
      else contextFrom (pos + 1) group rest
  end.

Section Batch.

(** [optimizeTranslation] awaits the external text generator; its
    answer is taken as an opaque function of the four arguments. *)
Variable optimizeTranslation :
  string -> string -> string -> option string -> string.

(** [speakerProfiles.get] *)
Variable speakerProfiles : string -> option SpeakerInfo.

Variable targetLanguage : string.

Definition profileDescription (group : Group) : option string :=
  match speakerProfiles (g_speakerId group) with
  | Some p => Some (gender p ++ ", " ++ age p ++ ", " ++ emotion p ++ " tone")
  | None => None
  end.

Definition translateGroup (segs : list DialogueSegment) (group : Group)
  : list TranslatedSegment :=
  let contextText := join " " (map transcription (contextFrom 0 group segs)) in
  map (fun segment =>
         mkTranslated
           (speakerId segment)
           (optimizeTranslation (transcription segment) targetLanguage
              contextText (profileDescription group))
           (startTime segment)
           (endTime segment))
      (g_segments group).

Definition batchOptimizeTranslations (segs : list DialogueSegment)
  : list TranslatedSegment :=
  flat_map (translateGroup segs) (groupSegmentsBySpeaker segs).

End Batch.

(** What the batch contract speaks about: who, from when, until when. *)
Definition timingOfSegment (s : DialogueSegment) : string * Q * Q :=
  (speakerId s, startTime s, endTime s).

Definition timingOfTranslated (t : TranslatedSegment) : string * Q * Q :=
  (t_speakerId t, t_startTime t, t_endTime t).

(** The leading segments whose speaker is the empty string are the ones
    that meet [currentGroup === null]. *)
Fixpoint dropUnnamed (segs : list DialogueSegment) : list DialogueSegment :=
  match segs with
  | [] => []
  | s :: rest => if String.eqb (speakerId s) "" then dropUnnamed rest else segs
  end.

(** The segments held by a list of groups, in order. *)
Definition groupedSegments (gs : list Group) : list DialogueSegment :=
  List.concat (map g_segments gs).

(** A one-segment input whose speaker is the empty string. *)
Definition unnamedExample : list DialogueSegment :=
  [mkSegment 0 1 "hello" ""].

(** Two groups of different speakers. *)
Definition differentSpeaker (a b : Group) : bool :=
  negb (String.eqb (g_speakerId a) (g_speakerId b)).

(** A group as [groupSegmentsBySpeaker] builds it: at least one
    segment, the speaker and start time of the first one, and no
    segment of another speaker. *)
Definition wellGrouped (g : Group) : Prop :=
  exists s rest,
    g_segments g = s :: rest
    /\ g_speakerId g = speakerId s
    /\ g_startTime g = startTime s
    /\ Forall (fun x => speakerId x = speakerId s) rest.

(** The loop invariant of [groupSegmentsBySpeaker], on the groups as
    they would be returned now. *)
Record groupInv (st : GroupState) : Prop := mkGroupInv {
  ginv_groups : Forall wellGrouped (pushCurrent st);
  ginv_adjacent : VideoChunker.adjacentAll differentSpeaker (pushCurrent st) = true;
  ginv_null : currentGroup st = None -> groups st = [];
  ginv_current : forall cg, currentGroup st = Some cg ->
                   exists s rest, cg = s :: rest
                                  /\ currentSpeakerId st = speakerId s
}.

End TranslationOptimizer.

(** * The PCM codec of useVideoProcessor.ts *)

Module PcmCodec.

Local Open Scope Q_scope.

Definition qmin (a b : Q) : Q := if Qle_bool a b then a else b.

(** [Math.max(-1, Math.min(1, x))] *)
Definition clampUnit (x : Q) : Q := qmax (-1) (qmin 1 x).

(** Truncation toward zero, the first step of every integer conversion. *)
Definition truncQ (x : Q) : Z := Z.quot (Qnum x) (Zpos (Qden x)).

(** The signed value of the low 16 bits. *)
Definition wrapInt16 (z : Z) : Z :=
  let m := (z mod 65536)%Z in
  if (m <? 32768)%Z then m else (m - 65536)%Z.

(** Storing a number into an [Int16Array]: truncate, then wrap. *)
Definition toInt16 (x : Q) : Z := wrapInt16 (truncQ x).

(** [result[i] = Math.max(-1, Math.min(1, data[i])) * 0x7FFF] *)
Definition sampleToInt16 (x : Q) : Z := toInt16 (clampUnit x * 32767).

(** [DataView] writers, little-endian; a byte is a [Z] in [0, 256). *)
Definition setUint8 (v : Z) : list Z := [(v mod 256)%Z].

Definition setUint16 (v : Z) : list Z :=
  [(v mod 256)%Z; ((v / 256) mod 256)%Z].

Definition setInt16 (v : Z) : list Z := setUint16 v.

Definition setUint32 (v : Z) : list Z :=
  [(v mod 256)%Z; ((v / 256) mod 256)%Z;
   ((v / 65536) mod 256)%Z; ((v / 16777216) mod 256)%Z].

Definition writeString (s : string) : list Z :=
  flat_map (fun c => setUint8 (Z.of_N (N_of_ascii c))) (list_ascii_of_string s).

Record AudioBuffer := mkAudioBuffer {
  numberOfChannels : Z;
  sampleRate : Z;
  channel0 : list Q
}.

Definition wavHeader (numChannels rate dataLength : Z) : list Z :=
  let format := 1%Z in
  let bitDepth := 16%Z in
  writeString "RIFF" ++ setUint32 (36 + dataLength) ++
  writeString "WAVE" ++ writeString "fmt " ++
  setUint32 16 ++ setUint16 format ++ setUint16 numChannels ++
  setUint32 rate ++ setUint32 (rate * numChannels * (bitDepth / 8)) ++
  setUint16 (numChannels * (bitDepth / 8)) ++ setUint16 bitDepth ++
  writeString "data" ++ setUint32 dataLength.

Definition audioBufferToWavBlob (b : AudioBuffer) : list Z :=
  let result := map sampleToInt16 (channel0 b) in
  let dataLength := (Z.of_nat (List.length result) * (16 / 8))%Z in
  wavHeader (numberOfChannels b) (sampleRate b) dataLength
  ++ flat_map setInt16 result.

(** [view.getInt16(byteOffset, true)]; [None] is the RangeError of a
    read that does not fit in the view. *)
Definition getInt16 (data : list Z) (byteOffset : Z) : option Z :=
  match taGet data byteOffset, taGet data (byteOffset + 1) with
  | Some lo, Some hi => Some (wrapInt16 (lo + 256 * hi))
  | _, _ => None
  end.

(** The loop over the frames of one channel, from frame [i] on, with
    [fuel] iterations left; [channelData] has a fixed length. *)
Fixpoint decodeFrames (data : list Z) (numChannels channel : Z)
  (fuel : nat) (i : Z) (channelData : list Q) : option (list Q) :=
  match fuel with
  | O => Some channelData
  | S fuel' =>
      let byteOffset := ((i * numChannels + channel) * 2)%Z in
      match getInt16 data byteOffset with
      | None => None
      | Some sample =>
          decodeFrames data numChannels channel fuel' (i + 1)%Z
            (taSet channelData i (inject_Z sample / 32768))
      end
  end.

Fixpoint decodeChannels (data : list Z) (numChannels : Z) (iters len : nat)
  (todo : nat) (channel : Z) : option (list (list Q)) :=
  match todo with
  | O => Some []
  | S todo' =>
      match decodeFrames data numChannels channel iters 0 (repeat 0 len) with
      | None => None
      | Some ch =>
          match decodeChannels data numChannels iters len todo' (channel + 1) with
          | None => None
          | Some rest => Some (ch :: rest)
          end
      end
  end.

(** The result is the data of each channel.  [frameCount] need not be
    an integer: the buffer is allocated with its integer part and the
    loop runs while [i < frameCount].  For empty data the code returns
    what the audio context gives for a length of 0; an audio context
    refuses that length, so the channels without samples of the model
    stand for no buffer that exists, and the properties of the decoder
    are stated for data that is not empty. *)
Definition manualDecodeAudioData (data : list Z) (numChannels : positive)
  : option (list (list Q)) :=
  let frameCount :=
    inject_Z (Z.of_nat (List.length data)) / 2 / inject_Z (Zpos numChannels) in
  if Qle_bool frameCount 0 then
    Some (repeat [] (Pos.to_nat numChannels))
  else
    decodeChannels data (Zpos numChannels)
      (Z.to_nat (Qceiling frameCount)) (Z.to_nat (Qfloor frameCount))
      (Pos.to_nat numChannels) 0.

(** The encoder's header is 44 bytes; the decoder reads headerless PCM. *)
Definition pcmPayload (wav : list Z) : list Z := skipn 44 wav.

(** The conversion as the specification words it, for comparison:
    [round(clamp(sample, -1, 1) * 32767)]. *)
Definition sampleToInt16_spec (x : Q) : Z := Qfloor (clampUnit x * 32767 + (1 # 2)).

(** What the decoder makes of a stored 16-bit pattern. *)
Definition decodeSample (v : Z) : Q := inject_Z (wrapInt16 v) / 32768.

Definition inUnitRange (x : Q) : Prop := -1 <= x <= 1.

(** The absolute error of a decoded sample [y] against the original [x]
    is below [bound]. *)
Definition errorBelow (bound : Q) (x y : Q) : Prop := Qabs (y - x) < bound.

Definition errorAtMost (bound : Q) (x y : Q) : Prop := Qabs (y - x) <= bound.

Definition codecExample : AudioBuffer :=
  mkAudioBuffer 1 24000 [1; -1; 1 # 2; 131069 # 131072; - (3 # 8)].

(** A sample just below full scale, exact in single precision. *)
Definition nearFullScale : Q := 131069 # 131072.

(** ** Reading the bytes back *)

(** The unsigned value of a little-endian byte list. *)
Fixpoint leValue (bytes : list Z) : Z :=
  match bytes with
  | [] => 0%Z
  | b :: rest => (b + 256 * leValue rest)%Z
  end.

Definition isByte (b : Z) : Prop := (0 <= b < 256)%Z.

(** The bytes [off .. off + n - 1] of a file. *)
Definition field (off n : nat) (bytes : list Z) : list Z :=
  firstn n (skipn off bytes).

(** The signed 16-bit value stored at byte offset [off]. *)
Definition int16At (data : list Z) (off : Z) : Z :=
  wrapInt16 (nth (Z.to_nat off) data 0%Z
             + 256 * nth (Z.to_nat (off + 1)) data 0%Z)%Z.

(** Sample [i] of channel [c] in interleaved PCM of [nc] channels. *)
Definition frameSample (data : list Z) (nc c i : Z) : Q :=
  inject_Z (int16At data ((i * nc + c) * 2)) / 32768.

Definition deinterleave (data : list Z) (nc : positive) (frames : nat)
  : list (list Q) :=
  map (fun c =>
         map (fun i => frameSample data (Zpos nc) (Z.of_nat c) (Z.of_nat i))
           (seq 0 frames))
      (seq 0 (Pos.to_nat nc)).

(** The byte length is a whole number of frames of [nc] channels. *)
Definition frameAligned (data : list Z) (nc : positive) : Prop :=
  (Z.of_nat (List.length data) mod (2 * Zpos nc) = 0)%Z.

Definition unitSample (x : Q) : Prop := -1 <= x < 1.

(** Two stereo frames, and the same with one byte more. *)
Definition stereoExample : list Z := [1; 2; 3; 4; 5; 6; 7; 8]%Z.
Definition brokenExample : list Z := [1; 2; 3; 4; 5; 6; 7; 8; 9]%Z.

End PcmCodec.

(** * Proofs *)

(** ** Comparisons and maxima on rationals *)

Lemma Qlt_bool_iff (a b : Q) : Qlt_bool a b = true <-> (a < b)%Q.
Proof.
  unfold Qlt_bool. rewrite negb_true_iff.
  split; intro H.
  - apply Qnot_le_lt. intro Hle. apply Qle_bool_iff in Hle. congruence.
  - destruct (Qle_bool b a) eqn:E; [|reflexivity].
    apply Qle_bool_iff in E. exfalso. exact (Qlt_not_le _ _ H E).
Qed.

Lemma Qlt_bool_false_iff (a b : Q) : Qlt_bool a b = false <-> (b <= a)%Q.
Proof.
  unfold Qlt_bool. rewrite negb_false_iff. apply Qle_bool_iff.
Qed.

Lemma qmax_ub_l (a b : Q) : (a <= qmax a b)%Q.
Proof.
  unfold qmax. destruct (Qle_bool a b) eqn:E.
  - now apply Qle_bool_iff.
  - apply Qle_refl.
Qed.

Lemma qmax_ub_r (a b : Q) : (b <= qmax a b)%Q.
Proof.
  unfold qmax. destruct (Qle_bool a b) eqn:E.
  - apply Qle_refl.
  - apply Qlt_le_weak, Qlt_bool_iff. unfold Qlt_bool. now rewrite E.
Qed.

Lemma qmax_cases (a b : Q) : qmax a b = a \/ qmax a b = b.
Proof. unfold qmax. destruct (Qle_bool a b); auto. Qed.

(** ** Double arithmetic *)

(** The rounding on known values.  A binary fraction of few bits is a
    double and stays as it is; the double nearest to 0.1 is
    3602879701896397 / 2^55; the double sum of 0.1 and 0.2 is not the
    double 0.3; a tie goes to the even significand, 2^53 + 1 to 2^53
    and 2^53 + 3 to 2^53 + 4. *)
Lemma roundDouble_examples :
  roundDouble (1 # 2) = 1 # 2
  /\ roundDouble (- (375 # 512)) = - (375 # 512)
  /\ roundDouble (1 # 10) = 3602879701896397 # 36028797018963968
  /\ Qeq_bool (roundDouble (roundDouble (1 # 10) + roundDouble (2 # 10)))
       (roundDouble (3 # 10)) = false
  /\ roundDouble (inject_Z (2 ^ 53 + 1)) = inject_Z (2 ^ 53)
  /\ roundDouble (inject_Z (2 ^ 53 + 3)) = inject_Z (2 ^ 53 + 4).
Proof. vm_compute. repeat split. Qed.

(** ** The chunker *)

Section ChunkerProofs.
Import VideoChunker.
Local Open Scope Q_scope.

Lemma concat_map_snoc {A B} (f : A -> list B) (l : list A) (x : A) :
  List.concat (map f (l ++ [x])) = (List.concat (map f l) ++ f x)%list.
Proof.
  rewrite map_app, concat_app. simpl. now rewrite app_nil_r.
Qed.

Lemma flatten_chunkStep g prev s st :
  flatten (chunkStep g prev s st) = (flatten st ++ [s])%list.
Proof.
  unfold chunkStep, flatten.
  destruct (shouldNewChunk g prev s st && nonEmpty (currentChunk st)); simpl.
  - rewrite concat_map_snoc. simpl. now rewrite <- app_assoc.
  - now rewrite app_assoc.
Qed.

Lemma flatten_chunkLoop g rest : forall prev st,
  flatten (chunkLoop g prev rest st) = (flatten st ++ rest)%list.
Proof.
  induction rest as [|s rest IH]; intros prev st; simpl.
  - now rewrite app_nil_r.
  - rewrite IH, flatten_chunkStep, <- app_assoc. reflexivity.
Qed.

Lemma concat_finish st : List.concat (map segments (finish st)) = flatten st.
Proof.
  unfold finish, flatten.
  destruct (currentChunk st) as [|s l]; simpl.
  - now rewrite app_nil_r.
  - now rewrite concat_map_snoc.
Qed.

Lemma chunkVideo_flat segs g :
  List.concat (map segments (chunkVideo segs g)) = sortSegments segs.
Proof.
  unfold chunkVideo. destruct segs as [|s segs]; [reflexivity|].
  cbv zeta. rewrite concat_finish, flatten_chunkLoop. reflexivity.
Qed.

(** *** The sort *)

Lemma insertSegment_perm x l : Permutation (x :: l) (insertSegment x l).
Proof.
  induction l as [|y l IH]; simpl; [reflexivity|].
  destruct (Qle_bool (startTime x) (startTime y)); [reflexivity|].
  rewrite perm_swap. now constructor.
Qed.

Lemma sortSegments_perm l : Permutation l (sortSegments l).
Proof.
  induction l as [|x l IH]; simpl; [constructor|].
  rewrite <- insertSegment_perm. now constructor.
Qed.

Lemma insertSegment_sorted x l :
  StronglySorted startsNoLater l -> StronglySorted startsNoLater (insertSegment x l).
Proof.
  induction 1 as [|y l Hs IH Hy]; simpl.
  - repeat constructor.
  - destruct (Qle_bool (startTime x) (startTime y)) eqn:E.
    + apply Qle_bool_iff in E.
      constructor; [now constructor|].
      constructor; [exact E|].
      eapply Forall_impl; [|exact Hy].
      intros z Hz. unfold startsNoLater in *. eapply Qle_trans; eauto.
    + constructor; [exact IH|].
      assert (Hyx : startsNoLater y x).
      { unfold startsNoLater. apply Qlt_le_weak, Qlt_bool_iff.
        unfold Qlt_bool. now rewrite E. }
      eapply Permutation_Forall; [apply insertSegment_perm|].
      now constructor.
Qed.

Lemma sortSegments_sorted l : StronglySorted startsNoLater (sortSegments l).
Proof.
  induction l as [|x l IH]; simpl; [constructor|].
  now apply insertSegment_sorted.
Qed.

Lemma insertSegment_stable t x l :
  filter (startsAt t) (insertSegment x l) = filter (startsAt t) (x :: l).
Proof.
  induction l as [|y l IH]; [reflexivity|].
  cbn [insertSegment].
  destruct (Qle_bool (startTime x) (startTime y)) eqn:E; [reflexivity|].
  cbn [filter] in *. rewrite IH.
  destruct (startsAt t x) eqn:Ex, (startsAt t y) eqn:Ey; try reflexivity.
  exfalso. unfold startsAt in *.
  apply Qeq_bool_iff in Ex, Ey.
  assert (Hle : startTime x <= startTime y) by (rewrite Ex, Ey; apply Qle_refl).
  apply Qle_bool_iff in Hle. congruence.
Qed.

Lemma sortSegments_stable t l :
  filter (startsAt t) (sortSegments l) = filter (startsAt t) l.
Proof.
  induction l as [|x l IH]; [reflexivity|].
  cbn [sortSegments]. rewrite insertSegment_stable.
  cbn [filter]. now rewrite IH.
Qed.

(** C9.  For every segment list and gap threshold, the segments of the
    returned chunks, read in chunk order, are the input sorted by
    [startTime]: a permutation of the input, in non-decreasing start
    order, with the segments of equal start in their input order. *)
Theorem chunkVideo_segments_are_sorted_input segs g :
  let out := List.concat (map segments (chunkVideo segs g)) in
  out = sortSegments segs
  /\ Permutation segs out
  /\ StronglySorted startsNoLater out
  /\ forall t, filter (startsAt t) out = filter (startsAt t) segs.
Proof.
  cbv zeta. rewrite chunkVideo_flat.
  split; [reflexivity|].
  split; [apply sortSegments_perm|].
  split; [apply sortSegments_sorted|].
  intro t. apply sortSegments_stable.
Qed.

(** *** The loop invariant *)

Lemma noAdjacentOverlap_snoc l p s :
  noAdjacentOverlap (l ++ [p]) = true ->
  Qlt_bool (startTime s) (endTime p) = false ->
  noAdjacentOverlap ((l ++ [p]) ++ [s]) = true.
Proof.
  intros Hl Hps. induction l as [|a l IH].
  - simpl. now rewrite Hps.
  - change ((a :: l) ++ [p])%list with (a :: (l ++ [p]))%list in *.
    change ((a :: (l ++ [p])) ++ [s])%list with (a :: ((l ++ [p]) ++ [s]))%list.
    cbn [noAdjacentOverlap] in *.
    destruct (l ++ [p])%list as [|b r] eqn:E.
    + destruct l; discriminate.
    + cbn [app]. apply andb_true_iff in Hl as [Hab Hr].
      rewrite Hab. cbn [andb]. apply IH. exact Hr.
Qed.

Lemma headStart_snoc l p s : headStart ((l ++ [p]) ++ [s]) = headStart (l ++ [p]).
Proof. destruct l; reflexivity. Qed.

Lemma nonEmpty_snoc {A} (l : list A) (p : A) : nonEmpty (l ++ [p]) = true.
Proof. destruct l; reflexivity. Qed.

Lemma createChunk_wf cur start :
  cur <> [] -> start = headStart cur -> noAdjacentOverlap cur = true ->
  wfChunk (createChunk cur start false).
Proof.
  intros Hne Hs Hin. constructor; simpl; auto.
  destruct (1 <? _)%nat; discriminate.
Qed.

Lemma chunkStep_inv g p s st :
  loopInv p st -> loopInv s (chunkStep g (Some p) s st).
Proof.
  intros [Hf [l Hl] Hs Hin Hc]. unfold chunkStep.
  destruct (shouldNewChunk g (Some p) s st && nonEmpty (currentChunk st)) eqn:E.
  - constructor; simpl; auto.
    + now exists [].
    + apply Forall_app. split; [exact Hc|]. constructor; [|constructor].
      rewrite Hf. apply createChunk_wf; auto.
      rewrite Hl. destruct l; discriminate.
  - assert (Hno : isOverlap (Some p) s = false).
    { destruct (isOverlap (Some p) s) eqn:Eo; [|reflexivity].
      unfold shouldNewChunk in E. rewrite Eo, Hf, Hl, nonEmpty_snoc in E.
      simpl in E. now rewrite orb_true_r in E. }
    constructor; cbn [hasOverlap currentChunk currentStartTime chunks].
    + now rewrite Hno.
    + now exists (currentChunk st).
    + rewrite Hs, Hl. symmetry. apply headStart_snoc.
    + rewrite Hl. apply noAdjacentOverlap_snoc; [now rewrite <- Hl|exact Hno].
    + exact Hc.
Qed.

Lemma chunkLoop_inv g rest : forall p st,
  loopInv p st -> exists q, loopInv q (chunkLoop g (Some p) rest st).
Proof.
  induction rest as [|s rest IH]; intros p st H; simpl.
  - now exists p.
  - apply IH. now apply chunkStep_inv.
Qed.

Lemma chunkStep_first g s start :
  chunkStep g None s (mkState [] [] start [] false)
  = mkState [] [s] start [speakerId s] false.
Proof.
  reflexivity.
Qed.

Lemma chunkVideo_wf segs g : Forall wfChunk (chunkVideo segs g).
Proof.
  unfold chunkVideo. destruct segs as [|s0 segs0]; [constructor|].
  cbv zeta.
  destruct (sortSegments (s0 :: segs0)) as [|first rest]; [constructor|].
  cbn [chunkLoop headStart]. rewrite chunkStep_first.
  destruct (chunkLoop_inv g rest (p := first)
              (st := mkState [] [first] (startTime first) [speakerId first] false))
    as [q [Hf [l Hl] Hs Hin Hc]].
  { constructor; simpl; auto. now exists []. }
  unfold finish. rewrite Hl, nonEmpty_snoc, <- Hl.
  apply Forall_app. split; [exact Hc|]. constructor; [|constructor].
  rewrite Hf. apply createChunk_wf; auto.
  rewrite Hl. destruct l; discriminate.
Qed.

(** The classification [Overlap] is never produced: the flag is reset
    when the overlapping segment opens its chunk, and only a set flag
    lets the next overlapping segment stay in the chunk and set it. *)
Lemma chunkVideo_never_overlap segs g :
  Forall (fun c => chunkType c <> Overlap) (chunkVideo segs g).
Proof.
  eapply Forall_impl; [|apply chunkVideo_wf]. intros c Hc. apply Hc.
Qed.

(** An overlapping segment closes the open chunk and opens its own. *)
Lemma chunkStep_overlap g p s st :
  isOverlap (Some p) s = true ->
  hasOverlap st = false ->
  nonEmpty (currentChunk st) = true ->
  chunkStep g (Some p) s st
  = mkState
      (chunks st ++ [createChunk (currentChunk st) (currentStartTime st) false])
      [s] (startTime s) [speakerId s] false.
Proof.
  intros Ho Hf Hne. unfold chunkStep, shouldNewChunk.
  rewrite Ho, Hf, Hne. cbn [negb andb]. rewrite orb_true_r. reflexivity.
Qed.

(** C3, as the code has it.  On the segments A 0-3, B 2-4 the result
    is, for every gap threshold, the two chunks A 0-3 and B 2-4; in
    general, while the open chunk has registered no overlap, a segment
    that starts before its predecessor ends closes the open chunk and
    opens a new one that starts with it.  The classification of the
    chunks is not part of the statement. *)
Theorem chunkVideo_overlap_splits g :
  (forall ta tb,
     map chunkExtent (chunkVideo (overlapExample ta tb) g)
     = [ (0, 3, [mkSegment 0 3 ta "A"], ["A"%string]);
         (2, 4, [mkSegment 2 4 tb "B"], ["B"%string]) ])
  /\ (forall p s st,
        isOverlap (Some p) s = true ->
        hasOverlap st = false ->
        nonEmpty (currentChunk st) = true ->
        let st' := chunkStep g (Some p) s st in
        chunks st'
        = (chunks st
           ++ [createChunk (currentChunk st) (currentStartTime st) false])%list
        /\ currentChunk st' = [s]
        /\ currentStartTime st' = startTime s).
Proof.
  split.
  - intros ta tb. unfold chunkVideo, overlapExample. cbv zeta.
    replace (sortSegments [mkSegment 0 3 ta "A"; mkSegment 2 4 tb "B"])
      with [mkSegment 0 3 ta "A"; mkSegment 2 4 tb "B"] by reflexivity.
    cbn [chunkLoop headStart]. rewrite chunkStep_first.
    rewrite chunkStep_overlap by reflexivity.
    reflexivity.
  - intros p s st Ho Hf Hne st'. unfold st'.
    rewrite chunkStep_overlap by assumption. repeat split.
Qed.

Lemma chunkVideo_overlap_splits_witness :
  let st := mkState [] [mkSegment 0 3 "a" "A"] 0 ["A"%string] false in
  let st' :=
    chunkStep defaultGapThreshold (Some (mkSegment 0 3 "a" "A"))
      (mkSegment 2 4 "b" "B") st in
  chunks st'
  = (chunks st
     ++ [createChunk (currentChunk st) (currentStartTime st) false])%list
  /\ currentChunk st' = [mkSegment 2 4 "b" "B"]
  /\ currentStartTime st' = startTime (mkSegment 2 4 "b" "B").
Proof.
  intros st st'.
  apply (proj2 (chunkVideo_overlap_splits defaultGapThreshold)
           (mkSegment 0 3 "a" "A") (mkSegment 2 4 "b" "B") st);
    reflexivity.
Defined.

(** C3 as stated fails: on A 0-3, B 2-4 with the default threshold the
    result is not a single chunk of type overlap from 0 to 4. *)
Lemma chunkVideo_overlap_example_not_one_chunk :
  ~ exists c,
      chunkVideo (overlapExample "a" "b") defaultGapThreshold = [c]
      /\ chunkType c = Overlap
      /\ speakers c = ["A"%string; "B"%string]
      /\ c_startTime c = 0 /\ c_endTime c = 4.
Proof.
  intros [c [H _]]. vm_compute in H. discriminate H.
Qed.

(** *** Ranges of the chunks *)

Lemma ForallOrdPairs_app_inv {A} (R : A -> A -> Prop) (l1 l2 : list A) :
  ForallOrdPairs R (l1 ++ l2) ->
  ForallOrdPairs R l2 /\ forall x y, In x l1 -> In y l2 -> R x y.
Proof.
  induction l1 as [|a l1 IH]; simpl; intro H.
  - split; [exact H|]. intros x y [].
  - inversion H as [|? ? Ha Hr]; subst.
    destruct (IH Hr) as [H2 Hc]. split; [exact H2|].
    intros x y [<-|Hx] Hy.
    + rewrite Forall_forall in Ha. apply Ha, in_or_app. now right.
    + now apply Hc.
Qed.

Lemma sorted_noAdjacentOverlap l :
  StronglySorted startsNoLater l -> noAdjacentOverlap l = true ->
  ForallOrdPairs endsBefore l.
Proof.
  induction 1 as [|a l Hs IH Ha]; intro Hn; [constructor|].
  destruct l as [|b l]; [repeat constructor|].
  cbn [noAdjacentOverlap] in Hn. apply andb_true_iff in Hn as [Hab Hn].
  apply negb_true_iff, Qlt_bool_false_iff in Hab.
  constructor; [|now apply IH].
  constructor; [exact Hab|].
  inversion Hs as [|? ? _ Hb]; subst.
  eapply Forall_impl; [|exact Hb].
  intros c Hc. unfold endsBefore, startsNoLater in *.
  eapply Qle_trans; eauto.
Qed.

Lemma fold_left_qmax_in xs : forall x, In (fold_left qmax xs x) (x :: xs).
Proof.
  induction xs as [|y xs IH]; intro x; simpl; [now left|].
  destruct (IH (qmax x y)) as [H|H].
  - rewrite <- H. destruct (qmax_cases x y) as [E|E]; rewrite E; simpl; auto.
  - simpl. auto.
Qed.

Lemma chunk_end_attained c :
  wfChunk c -> exists s, In s (segments c) /\ c_endTime c = endTime s.
Proof.
  intros [Hne _ He _ _]. rewrite He.
  destruct (segments c) as [|s l]; [congruence|].
  cbn [map maxOf].
  pose proof (fold_left_qmax_in (map endTime l) (endTime s)) as H.
  change (endTime s :: map endTime l) with (map endTime (s :: l)) in H.
  apply in_map_iff in H as [s' [E Hin]]. exists s'. auto.
Qed.

Lemma chunk_start_attained c :
  wfChunk c -> exists s, In s (segments c) /\ c_startTime c = startTime s.
Proof.
  intros [Hne Hs _ _ _]. rewrite Hs.
  destruct (segments c) as [|s l]; [congruence|].
  exists s. split; [now left|reflexivity].
Qed.

Lemma chunksIntersect_false c d :
  c_endTime c <= c_startTime d -> chunksIntersect c d = false.
Proof.
  intro H. unfold chunksIntersect. apply Qlt_bool_false_iff.
  eapply Qle_trans; [|apply qmax_ub_r].
  eapply Qle_trans; [|exact H].
  destruct (Qle_bool (c_endTime c) (c_endTime d)) eqn:E.
  - apply Qle_refl.
  - apply Qlt_le_weak, Qlt_bool_iff. unfold Qlt_bool. now rewrite E.
Qed.

Lemma pairwiseDisjoint_of_segments cs :
  Forall wfChunk cs ->
  ForallOrdPairs endsBefore (List.concat (map segments cs)) ->
  pairwiseDisjoint cs = true.
Proof.
  induction 1 as [|c cs Hc Hcs IH]; intro H; [reflexivity|].
  cbn [map List.concat] in H.
  apply ForallOrdPairs_app_inv in H as [Hrest Hcross].
  cbn [pairwiseDisjoint]. apply andb_true_iff. split; [|now apply IH].
  apply forallb_forall. intros d Hd.
  apply negb_true_iff, chunksIntersect_false.
  rewrite Forall_forall in Hcs.
  destruct (chunk_end_attained Hc) as [s [Hs ->]].
  destruct (chunk_start_attained (Hcs d Hd)) as [s' [Hs' ->]].
  apply Hcross; [exact Hs|].
  apply in_concat. exists (segments d). split; [|exact Hs'].
  now apply in_map.
Qed.

(** C5, as the code has it.  When, in start order, no segment starts
    before its predecessor ends, the ranges of the returned chunks are
    pairwise disjoint, for every gap threshold. *)
Theorem chunkVideo_disjoint_without_overlap segs g :
  noAdjacentOverlap (sortSegments segs) = true ->
  pairwiseDisjoint (chunkVideo segs g) = true.
Proof.
  intro H. apply pairwiseDisjoint_of_segments.
  - apply chunkVideo_wf.
  - rewrite chunkVideo_flat.
    apply sorted_noAdjacentOverlap; [apply sortSegments_sorted|exact H].
Qed.

Lemma chunkVideo_disjoint_without_overlap_witness :
  noAdjacentOverlap (sortSegments gapExample) = true
  /\ pairwiseDisjoint (chunkVideo gapExample defaultGapThreshold) = true.
Proof.
  split; [reflexivity|].
  apply (@chunkVideo_disjoint_without_overlap gapExample defaultGapThreshold).
  reflexivity.
Defined.

(** C5 as stated fails: the chunks of A 0-3, B 2-4 are 0-3 and 2-4. *)
Lemma chunkVideo_ranges_intersect :
  pairwiseDisjoint (chunkVideo (overlapExample "a" "b") defaultGapThreshold)
  = false.
Proof. vm_compute. reflexivity. Qed.

(** *** Chunks as maximal runs *)

Lemma speakerChanged_snoc l p s :
  speakerChanged (l ++ [p]) s
  = negb (String.eqb (speakerId s) (speakerId p)).
Proof. unfold speakerChanged. rewrite rev_app_distr. reflexivity. Qed.

Lemma shouldNewChunk_joins g p s st :
  runInv p st ->
  shouldNewChunk g (Some p) s st && nonEmpty (currentChunk st)
  = negb (joins g p s).
Proof.
  intros [Hf [l Hl] _ _]. unfold shouldNewChunk, joins.
  rewrite Hf, Hl, speakerChanged_snoc, nonEmpty_snoc.
  cbn [isOverlap hasGap].
  destruct (String.eqb (speakerId s) (speakerId p)),
    (Qlt_bool (startTime s) (endTime p)),
    (Qlt_bool g (fsub (startTime s) (endTime p))); reflexivity.
Qed.

Lemma newSet_fold_uniform id xs :
  Forall (eq id) xs -> fold_left (fun s x => setAdd x s) xs [id] = [id].
Proof.
  induction 1 as [|x xs Hx Hxs IH]; [reflexivity|].
  subst x. cbn [fold_left setAdd]. rewrite String.eqb_refl. exact IH.
Qed.

Lemma createChunk_runChunk p cur :
  cur <> [] ->
  Forall (fun s => speakerId s = speakerId p) cur ->
  createChunk cur (headStart cur) false = runChunk cur.
Proof.
  intros Hne Hu. destruct cur as [|s cur]; [congruence|].
  inversion Hu as [|? ? Hs Hrest]; subst.
  assert (E : newSet (map speakerId (s :: cur)) = [speakerId s]).
  { unfold newSet. cbn [map fold_left setAdd].
    apply newSet_fold_uniform. apply Forall_map.
    eapply Forall_impl; [|exact Hrest]. intros x Hx. cbn. congruence. }
  unfold createChunk, runChunk. rewrite E. reflexivity.
Qed.

(** One iteration, by whether the segment joins its predecessor. *)
Lemma chunkStep_joins g p s st :
  runInv p st -> joins g p s = true ->
  chunks (chunkStep g (Some p) s st) = chunks st
  /\ currentChunk (chunkStep g (Some p) s st) = (currentChunk st ++ [s])%list
  /\ runInv s (chunkStep g (Some p) s st).
Proof.
  intros Hinv Hj. pose proof (shouldNewChunk_joins g s Hinv) as E.
  rewrite Hj in E. destruct Hinv as [Hf [l Hl] Hs Hu].
  unfold chunkStep. rewrite E. cbn [negb chunks currentChunk].
  unfold joins in Hj. apply andb_true_iff in Hj as [Hj _].
  apply andb_true_iff in Hj as [Hsp Hov].
  apply String.eqb_eq in Hsp. apply negb_true_iff in Hov.
  repeat split; cbn [hasOverlap currentChunk currentStartTime].
  - unfold isOverlap. now rewrite Hov.
  - now exists (currentChunk st).
  - rewrite Hs, Hl. symmetry. apply headStart_snoc.
  - apply Forall_app. split; [|now repeat constructor].
    eapply Forall_impl; [|exact Hu]. intros x Hx. cbn in Hx. congruence.
Qed.

Lemma chunkStep_splits g p s st :
  runInv p st -> joins g p s = false ->
  chunks (chunkStep g (Some p) s st)
  = (chunks st ++ [runChunk (currentChunk st)])%list
  /\ currentChunk (chunkStep g (Some p) s st) = [s]
  /\ runInv s (chunkStep g (Some p) s st).
Proof.
  intros Hinv Hj. pose proof (shouldNewChunk_joins g s Hinv) as E.
  rewrite Hj in E. destruct Hinv as [Hf [l Hl] Hs Hu].
  unfold chunkStep. rewrite E. cbn [negb chunks currentChunk].
  repeat split; cbn [hasOverlap currentChunk currentStartTime]; auto.
  - rewrite Hf, Hs. f_equal. f_equal. apply createChunk_runChunk with (p := p).
    + rewrite Hl. destruct l; discriminate.
    + exact Hu.
  - now exists [].
Qed.

Lemma groupRuns_head g p rest :
  exists run runs, groupRuns g (p :: rest) = (p :: run) :: runs.
Proof.
  cbn [groupRuns].
  destruct (groupRuns g rest) as [|[|s run] runs]; eauto.
  destruct (joins g p s); eauto.
Qed.

Lemma chunkLoop_runs g rest : forall p st l,
  runInv p st -> currentChunk st = (l ++ [p])%list ->
  finish (chunkLoop g (Some p) rest st)
  = (chunks st ++ map runChunk (prependRun l (groupRuns g (p :: rest))))%list.
Proof.
  induction rest as [|s rest IH]; intros p st l Hinv Hl.
  - cbn [chunkLoop groupRuns prependRun map].
    destruct Hinv as [Hf _ Hs Hu].
    unfold finish. rewrite Hl, nonEmpty_snoc, <- Hl, Hf, Hs.
    f_equal. f_equal. apply createChunk_runChunk with (p := p); [|exact Hu].
    rewrite Hl. destruct l; discriminate.
  - cbn [chunkLoop].
    destruct (groupRuns_head g s rest) as (run & runs & E).
    change (groupRuns g (p :: s :: rest))
      with (match groupRuns g (s :: rest) with
            | (s' :: run') :: runs' =>
                if joins g p s' then (p :: s' :: run') :: runs'
                else [p] :: (s' :: run') :: runs'
            | _ => [[p]]
            end).
    rewrite E.
    destruct (joins g p s) eqn:Hj.
    + destruct (@chunkStep_joins g p s st Hinv Hj) as (Hc & Hcur & Hinv').
      rewrite (IH s _ (l ++ [p])%list Hinv') by (now rewrite Hcur, Hl).
      rewrite Hc, E. cbn [prependRun]. now rewrite <- app_assoc.
    + destruct (@chunkStep_splits g p s st Hinv Hj) as (Hc & Hcur & Hinv').
      rewrite (IH s _ [] Hinv') by exact Hcur.
      rewrite Hc, E, Hl. cbn [prependRun map app].
      now rewrite <- app_assoc.
Qed.

Lemma chunkVideo_groupRuns segs g :
  chunkVideo segs g = map runChunk (groupRuns g (sortSegments segs)).
Proof.
  unfold chunkVideo. destruct segs as [|s0 segs0]; [reflexivity|].
  cbv zeta.
  destruct (sortSegments (s0 :: segs0)) as [|first rest]; [reflexivity|].
  cbn [chunkLoop headStart]. rewrite chunkStep_first.
  rewrite (@chunkLoop_runs g rest first _ []).
  - destruct (groupRuns_head g first rest) as (run & runs & E).
    rewrite E. reflexivity.
  - constructor; cbn; auto. now exists [].
  - reflexivity.
Qed.

Lemma lastOf_cons {A} (a b : A) l : lastOf (a :: b :: l) = lastOf (b :: l).
Proof.
  unfold lastOf. cbn [rev].
  destruct (rev l) as [|x r]; reflexivity.
Qed.

Lemma groupRuns_chained g l :
  Forall (fun r => adjacentAll (joins g) r = true) (groupRuns g l).
Proof.
  induction l as [|p l IH]; [constructor|].
  cbn [groupRuns].
  destruct (groupRuns g l) as [|[|s run] runs]; try (repeat constructor).
  inversion IH as [|? ? Hr Hrs]; subst.
  destruct (joins g p s) eqn:Hj.
  - constructor; [|exact Hrs].
    change (adjacentAll (joins g) (p :: s :: run))
      with (joins g p s && adjacentAll (joins g) (s :: run)).
    now rewrite Hj, Hr.
  - constructor; [reflexivity|]. now constructor.
Qed.

Lemma groupRuns_boundaries g l :
  boundariesSplit (joins g) (groupRuns g l) = true.
Proof.
  induction l as [|p l IH]; [reflexivity|].
  cbn [groupRuns].
  destruct (groupRuns g l) as [|[|s run] runs]; try reflexivity.
  destruct (joins g p s) eqn:Hj.
  - destruct runs as [|r' runs]; [reflexivity|].
    cbn [boundariesSplit] in *. now rewrite lastOf_cons.
  - change (boundariesSplit (joins g) ([p] :: (s :: run) :: runs))
      with (negb (joins g p s)
            && boundariesSplit (joins g) ((s :: run) :: runs)).
    now rewrite Hj, IH.
Qed.

Lemma groupRuns_nonempty g l : Forall (fun r => r <> []) (groupRuns g l).
Proof.
  induction l as [|p l IH]; [constructor|].
  cbn [groupRuns].
  destruct (groupRuns g l) as [|[|s run] runs];
    try (repeat constructor; discriminate).
  inversion IH; subst.
  destruct (joins g p s); repeat constructor; auto; discriminate.
Qed.

Lemma groupRuns_concat g l : List.concat (groupRuns g l) = l.
Proof.
  induction l as [|p l IH]; [reflexivity|].
  pose proof (groupRuns_nonempty g l) as Hn.
  cbn [groupRuns].
  destruct (groupRuns g l) as [|[|s run] runs].
  - cbn in *. now rewrite <- IH.
  - inversion Hn; congruence.
  - destruct (joins g p s); cbn in *; now rewrite <- IH.
Qed.

Lemma map_segments_runChunk runs : map segments (map runChunk runs) = runs.
Proof. rewrite map_map. apply map_id. Qed.

(** The gap is the difference as the double subtraction gives it.  With
    A from 0 to 0.3 and A from 0.8 to 1, the times being the nearest
    doubles, the exact difference of the two doubles lies above 0.5,
    the double difference is 0.5: at the threshold 0.5 the segments
    stay in one chunk. *)
Lemma chunkVideo_gap_is_double_difference :
  let first := mkSegment 0 (roundDouble (3 # 10)) "a" "A" in
  let second := mkSegment (roundDouble (8 # 10)) 1 "b" "A" in
  Qlt_bool (1 # 2) (startTime second - endTime first) = true
  /\ fsub (startTime second) (endTime first) = 1 # 2
  /\ map segments (chunkVideo [first; second] defaultGapThreshold)
     = [[first; second]].
Proof. vm_compute. repeat split. Qed.

(** X1.  The chunks are the maximal runs of the sorted input: inside a
    chunk every segment has the speaker of its predecessor, does not
    start before the predecessor ends and starts at most the gap
    threshold after it, by the double difference of the two times;
    where one chunk ends and the next begins, at least one of the
    three fails. *)
Theorem chunkVideo_maximal_runs segs g :
  Forall (fun c => adjacentAll (joins g) (segments c) = true)
    (chunkVideo segs g)
  /\ boundariesSplit (joins g) (map segments (chunkVideo segs g)) = true.
Proof.
  rewrite chunkVideo_groupRuns. split.
  - apply Forall_map. cbn [segments runChunk]. apply groupRuns_chained.
  - rewrite map_segments_runChunk. apply groupRuns_boundaries.
Qed.

Lemma adjacentAll_joins_speaker g s rest :
  adjacentAll (joins g) (s :: rest) = true ->
  Forall (fun x => speakerId x = speakerId s) rest.
Proof.
  revert s. induction rest as [|b rest IH]; intros s H; [constructor|].
  change (joins g s b && adjacentAll (joins g) (b :: rest) = true) in H.
  apply andb_true_iff in H as [Hj Hr].
  unfold joins in Hj. apply andb_true_iff in Hj as [Hj _].
  apply andb_true_iff in Hj as [Hsp _]. apply String.eqb_eq in Hsp.
  constructor; [exact Hsp|].
  eapply Forall_impl; [|exact (IH b Hr)]. intros x Hx. cbn in Hx. congruence.
Qed.

(** X2.  Every chunk returned by [chunkVideo] is classified
    single-speaker, never multi-speaker or overlap: it holds at least
    one segment, all its segments have the speaker of the first one,
    which is its only speaker; it starts with its first segment and ends
    with the latest end among its segments. *)
Theorem chunkVideo_single_speaker segs g :
  Forall (fun c =>
            chunkType c = SingleSpeaker
            /\ exists s rest,
                 segments c = s :: rest
                 /\ speakers c = [speakerId s]
                 /\ Forall (fun x => speakerId x = speakerId s) rest
                 /\ c_startTime c = startTime s
                 /\ c_endTime c = maxOf (map endTime (s :: rest)))
    (chunkVideo segs g).
Proof.
  rewrite chunkVideo_groupRuns. apply Forall_map.
  pose proof (groupRuns_chained g (sortSegments segs)) as Hc.
  pose proof (groupRuns_nonempty g (sortSegments segs)) as Hn.
  induction (groupRuns g (sortSegments segs)) as [|r runs IH];
    [constructor|].
  inversion Hc; inversion Hn; subst.
  constructor; [|now apply IH].
  split; [reflexivity|].
  destruct r as [|s rest]; [congruence|].
  exists s, rest. cbn [runChunk segments speakers c_startTime c_endTime headStart].
  repeat split. eapply adjacentAll_joins_speaker; eauto.
Qed.

Lemma StronglySorted_app_l {A} (R : A -> A -> Prop) l1 l2 :
  StronglySorted R (l1 ++ l2) -> StronglySorted R l1.
Proof.
  induction l1 as [|a l1 IH]; cbn; intro H; [constructor|].
  inversion H as [|? ? Hs Ha]; subst. constructor; [now apply IH|].
  apply Forall_app in Ha. apply Ha.
Qed.

Lemma StronglySorted_app_r {A} (R : A -> A -> Prop) l1 l2 :
  StronglySorted R (l1 ++ l2) -> StronglySorted R l2.
Proof.
  induction l1 as [|a l1 IH]; cbn; intro H; [exact H|].
  inversion H; subst. now apply IH.
Qed.

Lemma chunkStarts_sorted cs :
  Forall wfChunk cs ->
  StronglySorted startsNoLater (List.concat (map segments cs)) ->
  StronglySorted (fun c d => c_startTime c <= c_startTime d) cs.
Proof.
  induction 1 as [|c cs Hc Hcs IH]; intro H; [constructor|].
  cbn [map List.concat] in H.
  constructor; [apply IH; eapply StronglySorted_app_r; eauto|].
  apply Forall_forall. intros d Hd.
  rewrite Forall_forall in Hcs.
  destruct (chunk_start_attained Hc) as [s [Hs ->]].
  destruct (chunk_start_attained (Hcs d Hd)) as [s' [Hs' ->]].
  destruct Hc as [Hne Hst _ _ _].
  destruct (segments c) as [|s0 l] eqn:Ec; [congruence|].
  assert (Hin' : In s' (List.concat (map segments cs))).
  { apply in_concat. exists (segments d). split; [now apply in_map|exact Hs']. }
  clear - H Hs Hin'. revert H Hs.
  generalize (s0 :: l) as run. intros run.
  induction run as [|a run IHr]; intros H [].
  - subst. cbn [app] in H. inversion H as [|? ? _ Ha]; subst.
    rewrite Forall_forall in Ha. apply Ha, in_or_app. now right.
  - cbn [app] in H. inversion H; subst. now apply IHr.
Qed.

(** X19.  The chunks come in chronological order of their start times,
    and there is at least one chunk unless the input is empty. *)
Theorem chunkVideo_chronological segs g :
  StronglySorted (fun c d => c_startTime c <= c_startTime d)
    (chunkVideo segs g)
  /\ (chunkVideo segs g = [] <-> segs = []).
Proof.
  split.
  - apply chunkStarts_sorted; [apply chunkVideo_wf|].
    rewrite chunkVideo_flat. apply sortSegments_sorted.
  - split; intro H.
    + pose proof (chunkVideo_flat segs g) as E. rewrite H in E.
      cbn in E. pose proof (sortSegments_perm segs) as P. rewrite <- E in P.
      apply Permutation_sym in P. now apply Permutation_nil in P.
    + now subst.
Qed.

(** *** validateChunks *)

Lemma fold_left_qmax_ge xs : forall x, x <= fold_left qmax xs x.
Proof.
  induction xs as [|y xs IH]; intro x; cbn [fold_left]; [apply Qle_refl|].
  eapply Qle_trans; [apply qmax_ub_l|apply IH].
Qed.

Lemma fold_left_qmax_ub xs : forall x y, In y xs -> y <= fold_left qmax xs x.
Proof.
  induction xs as [|z xs IH]; intros x y Hy; [destruct Hy|].
  cbn [fold_left]. destruct Hy as [<-|Hy].
  - eapply Qle_trans; [apply qmax_ub_r|apply fold_left_qmax_ge].
  - now apply IH.
Qed.

Lemma maxOf_ub xs y : In y xs -> y <= maxOf xs.
Proof.
  destruct xs as [|x xs]; [intros []|]. cbn [maxOf]. intros [<-|Hy].
  - apply fold_left_qmax_ge.
  - now apply fold_left_qmax_ub.
Qed.

Lemma chunkVideo_chunks_sorted segs g :
  Forall (fun c => StronglySorted startsNoLater (segments c))
    (chunkVideo segs g).
Proof.
  pose proof (sortSegments_sorted segs) as H.
  rewrite <- (chunkVideo_flat segs g) in H.
  induction (chunkVideo segs g) as [|c cs IH]; [constructor|].
  cbn [map List.concat] in H. constructor.
  - eapply StronglySorted_app_l; eauto.
  - apply IH. eapply StronglySorted_app_r; eauto.
Qed.

(** Every segment lies within the range of its chunk. *)
Lemma chunkVideo_bounds segs g :
  Forall (fun c =>
            Forall (fun s => c_startTime c <= startTime s
                             /\ endTime s <= c_endTime c) (segments c))
    (chunkVideo segs g).
Proof.
  pose proof (chunkVideo_wf segs g) as Hwf.
  pose proof (chunkVideo_chunks_sorted segs g) as Hs.
  induction (chunkVideo segs g) as [|c cs IH]; [constructor|].
  inversion Hwf as [|? ? [Hne Hst Hend _ _] Hwf']; subst.
  inversion Hs as [|? ? Hsc Hs']; subst.
  constructor; [|now apply IH].
  apply Forall_forall. intros s Hin. split.
  - rewrite Hst. destruct (segments c) as [|s0 l]; [destruct Hin|].
    cbn [headStart]. destruct Hin as [<-|Hin]; [apply Qle_refl|].
    inversion Hsc as [|? ? _ Hall]; subst.
    rewrite Forall_forall in Hall. now apply Hall.
  - rewrite Hend. apply maxOf_ub. now apply in_map.
Qed.

Lemma find_outsideChunk_none c :
  Forall (fun s => c_startTime c <= startTime s /\ endTime s <= c_endTime c)
    (segments c) ->
  find (outsideChunk c) (segments c) = None.
Proof.
  intro H. induction H as [|s l [H1 H2] Hl IH]; [reflexivity|].
  cbn [find]. unfold outsideChunk at 1.
  assert (E1 : Qlt_bool (startTime s) (c_startTime c - tolerance) = false).
  { apply Qlt_bool_false_iff. unfold tolerance. lra. }
  assert (E2 : Qlt_bool (c_endTime c + tolerance) (endTime s) = false).
  { apply Qlt_bool_false_iff. unfold tolerance. lra. }
  rewrite E1, E2. exact IH.
Qed.

Lemma validateFrom_ok cs :
  Forall (fun c =>
            Forall (fun s => c_startTime c <= startTime s
                             /\ endTime s <= c_endTime c) (segments c)) cs ->
  forall log,
    fst (validateFrom cs log) = true
    /\ filter isError (snd (validateFrom cs log)) = filter isError log.
Proof.
  induction 1 as [|c cs Hc Hcs IH]; intro log; [split; reflexivity|].
  cbn [validateFrom]. rewrite (@find_outsideChunk_none c Hc).
  destruct cs as [|next cs'].
  - apply IH.
  - destruct (Qlt_bool 1 (c_startTime next - c_endTime c)).
    + destruct (IH (log ++ [WarnGap (c_startTime next - c_endTime c)])%list)
        as [H1 H2].
      split; [exact H1|]. rewrite H2, filter_app. cbn. apply app_nil_r.
    + apply IH.
Qed.

(** X3.  [validateChunks] accepts whatever [chunkVideo] returns: the
    result is [true] and no error is written to the console (warnings
    about gaps between chunks may be), for every segment list, even one
    with segments that end before they start. *)
Theorem validateChunks_accepts_chunkVideo segs g :
  fst (validateChunks (chunkVideo segs g)) = true
  /\ filter isError (snd (validateChunks (chunkVideo segs g))) = [].
Proof.
  unfold validateChunks.
  apply (@validateFrom_ok _ (chunkVideo_bounds segs g) []).
Qed.

(** *** optimizeChunkOrder *)

Lemma hasType_eq t c : hasType t c = typeEqb (chunkType c) t.
Proof. reflexivity. Qed.

Lemma filter_hasType_twice t t' cs :
  filter (hasType t) (filter (hasType t') cs)
  = if typeEqb t t' then filter (hasType t) cs else [].
Proof.
  induction cs as [|c cs IH]; [now destruct (typeEqb t t')|].
  destruct (chunkType c) eqn:Ec, t, t';
    repeat (cbn [filter typeEqb] in *; rewrite ?hasType_eq, ?Ec);
    rewrite ?IH; reflexivity.
Qed.

Lemma optimizeChunkOrder_filter t cs :
  filter (hasType t) (optimizeChunkOrder cs) = filter (hasType t) cs.
Proof.
  unfold optimizeChunkOrder. rewrite !filter_app, !filter_hasType_twice.
  destruct t; cbn [typeEqb app]; now rewrite ?app_nil_r.
Qed.

Lemma optimizeChunkOrder_perm cs : Permutation cs (optimizeChunkOrder cs).
Proof.
  unfold optimizeChunkOrder.
  induction cs as [|c cs IH]; [constructor|].
  cbn [filter]. rewrite !hasType_eq.
  destruct (chunkType c); cbn [typeEqb].
  - cbn [app]. now constructor.
  - apply Permutation_cons_app. exact IH.
  - rewrite app_assoc. apply Permutation_cons_app.
    now rewrite <- app_assoc.
Qed.

(** X4.  [optimizeChunkOrder] loses and duplicates nothing, keeps the
    chunks of each type in their relative order, and ordering once more
    changes nothing. *)
Theorem optimizeChunkOrder_stable_partition cs :
  Permutation cs (optimizeChunkOrder cs)
  /\ (forall t, filter (hasType t) (optimizeChunkOrder cs)
                = filter (hasType t) cs)
  /\ optimizeChunkOrder (optimizeChunkOrder cs) = optimizeChunkOrder cs.
Proof.
  split; [apply optimizeChunkOrder_perm|].
  split; [intro t; apply optimizeChunkOrder_filter|].
  unfold optimizeChunkOrder at 1.
  now rewrite !optimizeChunkOrder_filter.
Qed.

Lemma filter_all {A} (f : A -> bool) l :
  Forall (fun x => f x = true) l -> filter f l = l.
Proof.
  induction 1 as [|x l Hx Hl IH]; [reflexivity|].
  cbn [filter]. now rewrite Hx, IH.
Qed.

Lemma filter_none {A} (f : A -> bool) l :
  Forall (fun x => f x = false) l -> filter f l = [].
Proof.
  induction 1 as [|x l Hx Hl IH]; [reflexivity|].
  cbn [filter]. now rewrite Hx.
Qed.

Lemma chunkVideo_all_single segs g :
  Forall (fun c => chunkType c = SingleSpeaker) (chunkVideo segs g).
Proof.
  rewrite chunkVideo_groupRuns. apply Forall_map.
  apply Forall_forall. intros r _. reflexivity.
Qed.

(** X5.  On the chunks of [chunkVideo] the reordering is the identity:
    they are all of the first type, so the chronological order is
    kept. *)
Theorem optimizeChunkOrder_chunkVideo segs g :
  optimizeChunkOrder (chunkVideo segs g) = chunkVideo segs g.
Proof.
  pose proof (chunkVideo_all_single segs g) as H.
  unfold optimizeChunkOrder.
  rewrite (@filter_all _ (hasType SingleSpeaker)),
    (@filter_none _ (hasType MultiSpeaker)),
    (@filter_none _ (hasType Overlap)).
  - now rewrite !app_nil_r.
  - eapply Forall_impl; [|exact H]. intros c Hc.
    rewrite hasType_eq. now rewrite Hc.
  - eapply Forall_impl; [|exact H]. intros c Hc.
    rewrite hasType_eq. now rewrite Hc.
  - eapply Forall_impl; [|exact H]. intros c Hc.
    rewrite hasType_eq. now rewrite Hc.
Qed.

End ChunkerProofs.

(** ** The translation batcher *)

Section BatchProofs.
Import TranslationOptimizer.

Variable optimizeTranslation :
  string -> string -> string -> option string -> string.
Variable speakerProfiles : string -> option SpeakerInfo.
Variable targetLanguage : string.

Lemma groupedSegments_snoc gs g :
  groupedSegments (gs ++ [g]) = (groupedSegments gs ++ g_segments g)%list.
Proof. apply concat_map_snoc. Qed.

Lemma pushCurrent_groupStep st s :
  currentGroup st <> None ->
  groupedSegments (pushCurrent (groupStep st s))
  = (groupedSegments (pushCurrent st) ++ [s])%list
  /\ currentGroup (groupStep st s) <> None.
Proof.
  intro Hc. unfold groupStep.
  destruct (negb (speakerId s =? currentSpeakerId st)%string).
  - split; [|discriminate].
    unfold pushCurrent at 1. cbn [currentGroup groups currentSpeakerId].
    now rewrite groupedSegments_snoc.
  - destruct (currentGroup st) as [g|] eqn:E; [|congruence].
    split; [|discriminate].
    unfold pushCurrent. cbn [currentGroup groups currentSpeakerId]. rewrite E.
    rewrite !groupedSegments_snoc. cbn [g_segments].
    now rewrite app_assoc.
Qed.

Lemma pushCurrent_fold segs : forall st,
  currentGroup st <> None ->
  groupedSegments (pushCurrent (fold_left groupStep segs st))
  = (groupedSegments (pushCurrent st) ++ segs)%list.
Proof.
  induction segs as [|s segs IH]; intros st Hc; cbn [fold_left].
  - now rewrite app_nil_r.
  - destruct (@pushCurrent_groupStep st s Hc) as [E Hc'].
    rewrite (IH _ Hc'), E, <- app_assoc. reflexivity.
Qed.

(** The groups hold the input without its leading unnamed segments. *)
Lemma groupSegmentsBySpeaker_segments segs :
  groupedSegments (groupSegmentsBySpeaker segs) = dropUnnamed segs.
Proof.
  unfold groupSegmentsBySpeaker.
  induction segs as [|s segs IH]; [reflexivity|].
  cbn [fold_left dropUnnamed]. unfold groupStep at 2.
  cbn [currentSpeakerId currentGroup groups].
  destruct (speakerId s =? "")%string; cbn [negb].
  - exact IH.
  - rewrite pushCurrent_fold by discriminate. reflexivity.
Qed.

Lemma translateGroup_timing segs g :
  map timingOfTranslated
    (translateGroup optimizeTranslation speakerProfiles targetLanguage segs g)
  = map timingOfSegment (g_segments g).
Proof.
  unfold translateGroup. rewrite map_map. reflexivity.
Qed.

Lemma batch_timing segs :
  map timingOfTranslated
    (batchOptimizeTranslations optimizeTranslation speakerProfiles
       targetLanguage segs)
  = map timingOfSegment (dropUnnamed segs).
Proof.
  unfold batchOptimizeTranslations.
  rewrite <- groupSegmentsBySpeaker_segments.
  unfold groupedSegments.
  induction (groupSegmentsBySpeaker segs) as [|g gs IH]; [reflexivity|].
  cbn [flat_map map List.concat].
  rewrite !map_app, translateGroup_timing, IH. reflexivity.
Qed.

(** C8, at the input the code loses.  Whatever the translator answers,
    a single segment whose speaker is the empty string yields no
    output at all; in general the output carries, in order and with
    speaker and times unchanged, the input without its leading
    segments of empty speaker. *)
Theorem batchOptimizeTranslations_drops_unnamed :
  batchOptimizeTranslations optimizeTranslation speakerProfiles
    targetLanguage unnamedExample = []
  /\ forall segs,
       map timingOfTranslated
         (batchOptimizeTranslations optimizeTranslation speakerProfiles
            targetLanguage segs)
       = map timingOfSegment (dropUnnamed segs).
Proof.
  split; [reflexivity|]. apply batch_timing.
Qed.

(** When the first speaker is named nothing is lost. *)
Lemma batch_timing_named s segs :
  speakerId s <> ""%string ->
  map timingOfTranslated
    (batchOptimizeTranslations optimizeTranslation speakerProfiles
       targetLanguage (s :: segs))
  = map timingOfSegment (s :: segs).
Proof.
  intro H. rewrite batch_timing. cbn [dropUnnamed].
  destruct (String.eqb_spec (speakerId s) ""); [contradiction|reflexivity].
Qed.

(** *** The groups *)

Lemma adjacentAll_snoc {A} (f : A -> A -> bool) l a b :
  VideoChunker.adjacentAll f (l ++ [a]) = true ->
  f a b = true ->
  VideoChunker.adjacentAll f ((l ++ [a]) ++ [b]) = true.
Proof.
  intros Hl Hab. induction l as [|x l IH].
  - cbn. now rewrite Hab.
  - change ((x :: l) ++ [a])%list with (x :: (l ++ [a]))%list in *.
    change ((x :: (l ++ [a])) ++ [b])%list with (x :: ((l ++ [a]) ++ [b]))%list.
    cbn [VideoChunker.adjacentAll] in *.
    destruct (l ++ [a])%list as [|y r] eqn:E.
    + destruct l; discriminate.
    + cbn [app]. apply andb_true_iff in Hl as [Hxy Hr].
      rewrite Hxy. cbn [andb]. apply IH. exact Hr.
Qed.

Lemma adjacentAll_replace_last {A} (f : A -> A -> bool) l a a' :
  (forall x, f x a' = f x a) ->
  VideoChunker.adjacentAll f (l ++ [a]) = true ->
  VideoChunker.adjacentAll f (l ++ [a']) = true.
Proof.
  intros Hf. induction l as [|x l IH]; [reflexivity|].
  cbn [app VideoChunker.adjacentAll].
  destruct l as [|y l].
  - cbn. now rewrite Hf.
  - cbn [app] in *. intro H. apply andb_true_iff in H as [Hxy Hr].
    rewrite Hxy. cbn [andb]. apply IH. exact Hr.
Qed.

Lemma groupStep_inv st seg : groupInv st -> groupInv (groupStep st seg).
Proof.
  intros [Hg Ha Hn Hc]. unfold groupStep.
  destruct (speakerId seg =? currentSpeakerId st)%string eqn:E; cbn [negb].
  - apply String.eqb_eq in E.
    destruct (currentGroup st) as [cg|] eqn:Ecg.
    + destruct (Hc cg eq_refl) as (s & rest & -> & Hs).
      unfold pushCurrent in Hg, Ha. rewrite Ecg in Hg, Ha.
      apply Forall_app in Hg as [Hg Hlast].
      inversion Hlast as [|? ? (s' & rest' & Hseg & _ & _ & Hu) _]; subst.
      cbn [g_segments] in Hseg. injection Hseg as <- <-.
      constructor; unfold pushCurrent;
        cbn [currentGroup groups currentSpeakerId].
      * apply Forall_app. split; [exact Hg|].
        constructor; [|constructor].
        exists s, (rest ++ [seg])%list. cbn [g_segments g_speakerId g_startTime].
        repeat split; auto.
        apply Forall_app. split; [exact Hu|].
        constructor; [congruence|constructor].
      * eapply adjacentAll_replace_last; [|exact Ha]. reflexivity.
      * discriminate.
      * intros cg' Hcg'. injection Hcg' as <-. exists s, (rest ++ [seg])%list.
        split; [reflexivity|exact Hs].
    + constructor; unfold pushCurrent in *;
        cbn [currentGroup groups currentSpeakerId]; rewrite ?Ecg in *; auto.
  - assert (Hne : speakerId seg <> currentSpeakerId st).
    { intro H. apply String.eqb_eq in H. congruence. }
    constructor; unfold pushCurrent at 1;
      cbn [currentGroup groups currentSpeakerId].
    + apply Forall_app. split; [exact Hg|].
      constructor; [|constructor].
      exists seg, []. cbn. repeat split. constructor.
    + destruct (currentGroup st) as [cg|] eqn:Ecg.
      * unfold pushCurrent in *. rewrite Ecg in *.
        apply adjacentAll_snoc; [exact Ha|].
        unfold differentSpeaker. cbn [g_speakerId].
        apply negb_true_iff. apply String.eqb_neq. congruence.
      * unfold pushCurrent. rewrite Ecg, (Hn eq_refl). reflexivity.
    + discriminate.
    + intros cg Hcg. injection Hcg as <-. now exists seg, [].
Qed.

Lemma fold_groupStep_inv segs : forall st,
  groupInv st -> groupInv (fold_left groupStep segs st).
Proof.
  induction segs as [|s segs IH]; intros st H; [exact H|].
  cbn [fold_left]. apply IH. now apply groupStep_inv.
Qed.

(** X13.  Every group returned by [groupSegmentsBySpeaker] holds at
    least one segment, carries the speaker and the start time of its
    first segment and holds segments of that speaker only, and two
    neighbouring groups never have the same speaker. *)
Theorem groupSegmentsBySpeaker_groups segs :
  Forall wellGrouped (groupSegmentsBySpeaker segs)
  /\ VideoChunker.adjacentAll differentSpeaker (groupSegmentsBySpeaker segs)
     = true.
Proof.
  unfold groupSegmentsBySpeaker.
  destruct (@fold_groupStep_inv segs (mkGroupState [] None "")) as [Hg Ha _ _].
  - constructor; cbn; auto. discriminate.
  - split; assumption.
Qed.

End BatchProofs.

(** ** The PCM codec *)

Section CodecProofs.
Import PcmCodec.
Local Open Scope Q_scope.

Lemma wavHeader_length c r n : List.length (wavHeader c r n) = 44%nat.
Proof. reflexivity. Qed.

Lemma pcmPayload_wav b :
  pcmPayload (audioBufferToWavBlob b)
  = flat_map setInt16 (map sampleToInt16 (channel0 b)).
Proof.
  unfold pcmPayload, audioBufferToWavBlob.
  rewrite skipn_app, wavHeader_length, skipn_all2 by (rewrite wavHeader_length; lia).
  reflexivity.
Qed.

(** *** Integer conversion *)

Lemma wrapInt16_small t : (-32768 <= t < 32768)%Z -> wrapInt16 t = t.
Proof.
  intro H. unfold wrapInt16.
  destruct (Z_lt_le_dec t 0) as [Hn|Hp].
  - assert (E : (t mod 65536 = t + 65536)%Z).
    { symmetry. apply Z.mod_unique with (q := (-1)%Z); lia. }
    rewrite E. destruct (Z.ltb_spec (t + 65536) 32768); lia.
  - rewrite Z.mod_small by lia. destruct (Z.ltb_spec t 32768); lia.
Qed.

Lemma wrapInt16_bytes v :
  wrapInt16 (v mod 256 + 256 * ((v / 256) mod 256)) = wrapInt16 v.
Proof.
  unfold wrapInt16.
  replace (v mod 256 + 256 * ((v / 256) mod 256))%Z with (v mod 65536)%Z.
  - now rewrite Z.mod_mod by lia.
  - change 65536%Z with (256 * 256)%Z. apply Z.rem_mul_r; lia.
Qed.

Lemma truncQ_bounds y :
  (0 <= y -> 0 <= inject_Z (truncQ y) /\ inject_Z (truncQ y) <= y
             /\ y < inject_Z (truncQ y) + 1)
  /\ (y <= 0 -> inject_Z (truncQ y) <= 0 /\ y <= inject_Z (truncQ y)
                /\ inject_Z (truncQ y) - 1 < y).
Proof.
  destruct y as [n d]. unfold truncQ, Qle, Qlt. cbn.
  split; intro H.
  - assert (Hn : (0 <= n)%Z) by lia.
    pose proof (Z.quot_pos n (Zpos d) Hn ltac:(lia)).
    pose proof (Z.mul_quot_le n (Zpos d) Hn ltac:(lia)).
    pose proof (Z.mul_succ_quot_gt n (Zpos d) Hn ltac:(lia)).
    lia.
  - assert (Hn : (0 <= - n)%Z) by lia.
    pose proof (Z.quot_pos (- n) (Zpos d) Hn ltac:(lia)).
    pose proof (Z.mul_quot_le (- n) (Zpos d) Hn ltac:(lia)).
    pose proof (Z.mul_succ_quot_gt (- n) (Zpos d) Hn ltac:(lia)).
    rewrite Z.quot_opp_l in * by lia.
    lia.
Qed.

Lemma clampUnit_id x : inUnitRange x -> clampUnit x == x.
Proof.
  intros [Hlo Hhi]. unfold clampUnit, qmin, qmax.
  destruct (Qle_bool 1 x) eqn:E1.
  - apply Qle_bool_iff in E1. cbn. lra.
  - destruct (Qle_bool (-1) x) eqn:E2; [reflexivity|].
    apply Qle_bool_iff in Hlo. congruence.
Qed.

Lemma inject_Z_le_inv (t k : Z) : inject_Z t <= inject_Z k -> (t <= k)%Z.
Proof. now rewrite <- Zle_Qle. Qed.

(** One sample through the encoder's conversion and back. *)
Lemma sample_round_trip x :
  inUnitRange x -> errorBelow (2 # 32768) x (decodeSample (sampleToInt16 x)).
Proof.
  intro Hx. pose proof (clampUnit_id Hx) as Hc. destruct Hx as [Hlo Hhi].
  unfold errorBelow, decodeSample, sampleToInt16, toInt16.
  set (y := clampUnit x * 32767) in *.
  assert (Hy : y == x * 32767) by (unfold y; now rewrite Hc).
  destruct (truncQ_bounds y) as [Hpos Hneg].
  set (t := truncQ y) in *.
  assert (Ht : -32767 <= inject_Z t <= 32767 /\ - (1) < y - inject_Z t < 1
               /\ (0 <= x -> 0 <= inject_Z t) /\ (x <= 0 -> inject_Z t <= 0)).
  { destruct (Qlt_le_dec y 0) as [Hn|Hp].
    - destruct (Hneg ltac:(lra)) as (? & ? & ?).
      repeat split; lra.
    - destruct (Hpos Hp) as (? & ? & ?).
      repeat split; lra. }
  destruct Ht as ([Ht1 Ht2] & Hd & _).
  assert (Hw : wrapInt16 t = t).
  { change (-32767) with (inject_Z (-32767)) in Ht1.
    change 32767 with (inject_Z 32767) in Ht2.
    apply inject_Z_le_inv in Ht1, Ht2. apply wrapInt16_small. lia. }
  rewrite !Hw.
  apply Qabs_Qlt_condition.
  assert (E : inject_Z t / 32768 - x == (inject_Z t - y - x) * (1 # 32768)).
  { rewrite Hy. field. }
  rewrite E. lra.
Qed.

(** *** The decoder on the encoder's payload *)

Lemma flat_map_setInt16_length vs :
  List.length (flat_map setInt16 vs) = (2 * List.length vs)%nat.
Proof. induction vs as [|v vs IH]; simpl; lia. Qed.

Lemma nth_error_setInt16 done v rest :
  nth_error (flat_map setInt16 (done ++ v :: rest)) (2 * List.length done)
  = Some (v mod 256)%Z
  /\ nth_error (flat_map setInt16 (done ++ v :: rest)) (2 * List.length done + 1)
     = Some ((v / 256) mod 256)%Z.
Proof.
  induction done as [|a done IH]; [split; reflexivity|].
  cbn [app flat_map List.length].
  replace (2 * S (List.length done))%nat with (S (S (2 * List.length done))) by lia.
  exact IH.
Qed.

Lemma getInt16_setInt16 done v rest :
  getInt16 (flat_map setInt16 (done ++ v :: rest))
    ((Z.of_nat (List.length done) * 1 + 0) * 2)
  = Some (wrapInt16 v).
Proof.
  destruct (nth_error_setInt16 done v rest) as [Hlo Hhi].
  unfold getInt16, taGet.
  destruct (Z.ltb_spec ((Z.of_nat (List.length done) * 1 + 0) * 2) 0); [lia|].
  destruct (Z.ltb_spec ((Z.of_nat (List.length done) * 1 + 0) * 2 + 1) 0); [lia|].
  replace (Z.to_nat ((Z.of_nat (List.length done) * 1 + 0) * 2))
    with (2 * List.length done)%nat by lia.
  replace (Z.to_nat ((Z.of_nat (List.length done) * 1 + 0) * 2 + 1))
    with (2 * List.length done + 1)%nat by lia.
  rewrite Hlo, Hhi, wrapInt16_bytes. reflexivity.
Qed.

Lemma updateAt_middle {A} (l1 : list A) (x y : A) (l2 : list A) n :
  n = List.length l1 ->
  updateAt n y (l1 ++ x :: l2) = (l1 ++ y :: l2)%list.
Proof.
  intros ->. induction l1 as [|a l1 IH]; simpl; [reflexivity|now rewrite IH].
Qed.

Lemma decodeFrames_mono rest : forall done,
  decodeFrames (flat_map setInt16 (done ++ rest)) 1 0
    (List.length rest) (Z.of_nat (List.length done))
    (map decodeSample done ++ repeat 0 (List.length rest))
  = Some (map decodeSample (done ++ rest)).
Proof.
  induction rest as [|v rest IH]; intro done.
  - cbn [List.length decodeFrames repeat]. now rewrite !app_nil_r.
  - cbn [List.length decodeFrames repeat].
    rewrite getInt16_setInt16.
    unfold taSet. destruct (Z.ltb_spec (Z.of_nat (List.length done)) 0); [lia|].
    rewrite Nat2Z.id.
    rewrite updateAt_middle by (symmetry; apply length_map).
    specialize (IH (done ++ [v])%list).
    rewrite <- app_assoc in IH. cbn [app] in IH.
    rewrite length_app, map_app in IH. cbn [List.length map] in IH.
    rewrite <- app_assoc in IH. cbn [app] in IH.
    replace (Z.of_nat (List.length done) + 1)%Z
      with (Z.of_nat (List.length done + 1)) by lia.
    exact IH.
Qed.

Lemma manualDecodeAudioData_mono vs :
  manualDecodeAudioData (flat_map setInt16 vs) 1 = Some [map decodeSample vs].
Proof.
  unfold manualDecodeAudioData. rewrite flat_map_setInt16_length.
  set (fc := inject_Z (Z.of_nat (2 * List.length vs)) / 2 / inject_Z 1).
  assert (E : fc == inject_Z (Z.of_nat (List.length vs))).
  { unfold fc. rewrite Nat2Z.inj_mul, inject_Z_mult.
    change (inject_Z (Z.of_nat 2)) with 2. change (inject_Z 1) with 1. field. }
  destruct vs as [|v vs].
  - reflexivity.
  - destruct (Qle_bool fc 0) eqn:E0.
    + apply Qle_bool_iff in E0. rewrite E in E0.
      change 0 with (inject_Z 0) in E0. apply inject_Z_le_inv in E0.
      cbn [List.length] in E0. lia.
    + rewrite (Qceiling_comp _ _ E), (Qfloor_comp _ _ E), Qceiling_Z, Qfloor_Z.
      rewrite Nat2Z.id. change (Pos.to_nat 1) with 1%nat.
      pose proof (decodeFrames_mono (v :: vs) []) as H.
      cbn [app map List.length Z.of_nat] in H.
      cbn [List.length decodeChannels]. rewrite H. reflexivity.
Qed.

(** C4, as the code has it.  For samples in [-1, 1], encoding into a
    WAV file and decoding its payload as mono PCM gives back as many
    samples, each within 2/32768 of the original: the conversion scales
    by 32767 and truncates toward zero, the decoder divides by
    32768. *)
Theorem wav_round_trip_error b :
  Forall inUnitRange (channel0 b) ->
  exists out,
    manualDecodeAudioData (pcmPayload (audioBufferToWavBlob b)) 1 = Some [out]
    /\ Forall2 (errorBelow (2 # 32768)) (channel0 b) out.
Proof.
  intro H. exists (map decodeSample (map sampleToInt16 (channel0 b))).
  split.
  - rewrite pcmPayload_wav. apply manualDecodeAudioData_mono.
  - induction H as [|x l Hx Hl IH]; cbn [map]; constructor; auto.
    now apply sample_round_trip.
Qed.

Lemma wav_round_trip_error_witness :
  Forall inUnitRange (channel0 codecExample)
  /\ exists out,
       manualDecodeAudioData (pcmPayload (audioBufferToWavBlob codecExample)) 1
       = Some [out]
       /\ Forall2 (errorBelow (2 # 32768)) (channel0 codecExample) out.
Proof.
  assert (H : Forall inUnitRange (channel0 codecExample)).
  { repeat constructor; vm_compute; discriminate. }
  split; [exact H|]. exact (wav_round_trip_error codecExample H).
Defined.

(** C4 as stated fails: the sample 131069/131072 comes back as
    32766/32768, which is 1.25/32768 away. *)
Lemma wav_round_trip_exceeds_quantum :
  inUnitRange nearFullScale
  /\ manualDecodeAudioData
       (pcmPayload (audioBufferToWavBlob (mkAudioBuffer 1 24000 [nearFullScale]))) 1
     = Some [[32766 # 32768]]
  /\ ~ errorAtMost (1 # 32768) nearFullScale (32766 # 32768).
Proof.
  split; [split; vm_compute; discriminate|].
  split; [vm_compute; reflexivity|].
  unfold errorAtMost. vm_compute. intro H. apply H. reflexivity.
Qed.

(** The conversion worded with [round] gives the same 16-bit value on
    that sample, so the bound of one quantum fails for it as well. *)
Lemma sampleToInt16_spec_same_value :
  sampleToInt16_spec nearFullScale = 32766%Z
  /\ sampleToInt16 nearFullScale = 32766%Z.
Proof. split; vm_compute; reflexivity. Qed.

(** *** The container *)

Lemma leValue_setUint32 v : leValue (setUint32 v) = (v mod 4294967296)%Z.
Proof.
  unfold setUint32. cbn [leValue].
  change 4294967296%Z with (256 * (256 * (256 * 256)))%Z.
  rewrite (Z.rem_mul_r v 256 (256 * (256 * 256))) by lia.
  rewrite (Z.rem_mul_r (v / 256) 256 (256 * 256)) by lia.
  rewrite (Z.rem_mul_r (v / 256 / 256) 256 256) by lia.
  rewrite !Z.div_div by lia.
  change (256 * 256)%Z with 65536%Z. change (65536 * 256)%Z with 16777216%Z.
  lia.
Qed.

Lemma leValue_setUint16 v : leValue (setUint16 v) = (v mod 65536)%Z.
Proof.
  unfold setUint16. cbn [leValue].
  change 65536%Z with (256 * 256)%Z.
  rewrite (Z.rem_mul_r v 256 256) by lia. lia.
Qed.

Lemma writeString_isByte str : Forall isByte (writeString str).
Proof.
  unfold writeString. induction (list_ascii_of_string str) as [|c l IH];
    [constructor|].
  cbn [flat_map setUint8 app]. constructor; [|exact IH].
  unfold isByte. apply Z.mod_pos_bound. lia.
Qed.

Lemma setUint16_isByte v : Forall isByte (setUint16 v).
Proof.
  unfold setUint16, isByte. repeat constructor; apply Z.mod_pos_bound; lia.
Qed.

Lemma setUint32_isByte v : Forall isByte (setUint32 v).
Proof.
  unfold setUint32, isByte. repeat constructor; apply Z.mod_pos_bound; lia.
Qed.

Lemma flat_map_setInt16_isByte vs : Forall isByte (flat_map setInt16 vs).
Proof.
  induction vs as [|v vs IH]; [constructor|].
  cbn [flat_map]. apply Forall_app. split; [apply setUint16_isByte|exact IH].
Qed.

Lemma wavHeader_shape c r n :
  wavHeader c r n
  = ([82; 73; 70; 70] ++ setUint32 (36 + n)
     ++ [87; 65; 86; 69] ++ [102; 109; 116; 32]
     ++ setUint32 16 ++ setUint16 1 ++ setUint16 c
     ++ setUint32 r ++ setUint32 (r * c * 2)
     ++ setUint16 (c * 2) ++ setUint16 16
     ++ [100; 97; 116; 97] ++ setUint32 n)%Z%list.
Proof. reflexivity. Qed.

(** X14.  The WAV blob is 44 bytes followed by two bytes per sample of
    channel 0, every entry a byte.  It opens with RIFF; read as
    little-endian numbers its size fields are [36 + 2n] and [2n] modulo
    2^32, for [n] samples, and the channel count and the sample rate
    are those of the buffer modulo 2^16 and 2^32.  The payload size
    does not depend on the channel count the header declares. *)
Theorem audioBufferToWavBlob_layout b :
  let wav := audioBufferToWavBlob b in
  let n := Z.of_nat (List.length (channel0 b)) in
  List.length wav = (44 + 2 * List.length (channel0 b))%nat
  /\ Forall isByte wav
  /\ field 0 4 wav = [82; 73; 70; 70]%Z
  /\ leValue (field 4 4 wav) = ((36 + 2 * n) mod 4294967296)%Z
  /\ leValue (field 22 2 wav) = (numberOfChannels b mod 65536)%Z
  /\ leValue (field 24 4 wav) = (sampleRate b mod 4294967296)%Z
  /\ leValue (field 40 4 wav) = ((2 * n) mod 4294967296)%Z.
Proof.
  cbv zeta. unfold audioBufferToWavBlob. rewrite length_map.
  change (16 / 8)%Z with 2%Z.
  set (n := Z.of_nat (List.length (channel0 b))).
  replace (n * 2)%Z with (2 * n)%Z by lia.
  split.
  - rewrite length_app, wavHeader_length, flat_map_setInt16_length, length_map.
    reflexivity.
  - split.
    + apply Forall_app. split; [|apply flat_map_setInt16_isByte].
      rewrite wavHeader_shape.
      repeat (apply Forall_app; split);
        first [ apply setUint16_isByte
              | apply setUint32_isByte
              | repeat constructor; unfold isByte; lia ].
    + rewrite wavHeader_shape. unfold field.
      repeat split.
      * rewrite <- leValue_setUint32. reflexivity.
      * rewrite <- leValue_setUint16. reflexivity.
      * rewrite <- leValue_setUint32. reflexivity.
      * rewrite <- leValue_setUint32. reflexivity.
Qed.

(** *** Order and saturation of the sample conversion *)

Lemma clampUnit_cases x :
  (x <= -1 /\ clampUnit x == -1)
  \/ (-1 <= x <= 1 /\ clampUnit x == x)
  \/ (1 <= x /\ clampUnit x == 1).
Proof.
  unfold clampUnit, qmax, qmin.
  destruct (Qle_bool 1 x) eqn:E1.
  - apply Qle_bool_iff in E1. right. right. split; [exact E1|reflexivity].
  - assert (Hx : x < 1)
      by (apply Qlt_bool_iff; unfold Qlt_bool; now rewrite E1).
    destruct (Qle_bool (-1) x) eqn:E2.
    + apply Qle_bool_iff in E2. right. left. split; [lra|reflexivity].
    + assert (Hx' : x < -1)
        by (apply Qlt_bool_iff; unfold Qlt_bool; now rewrite E2).
      left. split; [lra|reflexivity].
Qed.

Lemma clampUnit_range x : -1 <= clampUnit x <= 1.
Proof.
  destruct (clampUnit_cases x) as [[? E]|[[? E]|[? E]]]; rewrite E; lra.
Qed.

Lemma clampUnit_mono x y : x <= y -> clampUnit x <= clampUnit y.
Proof.
  intro H.
  destruct (clampUnit_cases x) as [[? Ex]|[[? Ex]|[? Ex]]];
    destruct (clampUnit_cases y) as [[? Ey]|[[? Ey]|[? Ey]]];
    rewrite Ex, Ey; lra.
Qed.

Lemma inject_Z_lt_inv (t k : Z) : inject_Z t < inject_Z k -> (t < k)%Z.
Proof. now rewrite <- Zlt_Qlt. Qed.

Lemma truncQ_mono x y : x <= y -> (truncQ x <= truncQ y)%Z.
Proof.
  intro H.
  destruct (truncQ_bounds x) as [Hxp Hxn], (truncQ_bounds y) as [Hyp Hyn].
  assert (Hlt : inject_Z (truncQ x) < inject_Z (truncQ y + 1)).
  { rewrite inject_Z_plus. change (inject_Z 1) with 1.
    destruct (Qlt_le_dec x 0) as [Hx|Hx], (Qlt_le_dec y 0) as [Hy|Hy].
    - destruct (Hxn ltac:(lra)) as (? & ? & ?).
      destruct (Hyn ltac:(lra)) as (? & ? & ?). lra.
    - destruct (Hxn ltac:(lra)) as (? & ? & ?).
      destruct (Hyp Hy) as (? & ? & ?). lra.
    - lra.
    - destruct (Hxp Hx) as (? & ? & ?).
      destruct (Hyp Hy) as (? & ? & ?). lra. }
  apply inject_Z_lt_inv in Hlt. lia.
Qed.

Lemma truncQ_clamped x :
  (-32767 <= truncQ (clampUnit x * 32767) <= 32767)%Z.
Proof.
  pose proof (clampUnit_range x) as [Hlo Hhi].
  assert (H1 : (truncQ (-32767) <= truncQ (clampUnit x * 32767))%Z)
    by (apply truncQ_mono; lra).
  assert (H2 : (truncQ (clampUnit x * 32767) <= truncQ 32767)%Z)
    by (apply truncQ_mono; lra).
  change (truncQ (-32767)) with (-32767)%Z in H1.
  change (truncQ 32767) with 32767%Z in H2. lia.
Qed.

Lemma sampleToInt16_trunc x :
  sampleToInt16 x = truncQ (clampUnit x * 32767).
Proof.
  unfold sampleToInt16, toInt16. apply wrapInt16_small.
  pose proof (truncQ_clamped x). lia.
Qed.

(** X15.  The conversion to 16 bits keeps the order of the samples,
    stays within -32767 .. 32767 (the value -32768 is never written),
    and saturates: every sample at or above 1.0 becomes 32767, every
    sample at or below -1.0 becomes -32767. *)
Theorem sampleToInt16_order x y :
  x <= y ->
  (-32767 <= sampleToInt16 x <= sampleToInt16 y)%Z
  /\ (sampleToInt16 y <= 32767)%Z
  /\ (1 <= x -> sampleToInt16 x = 32767%Z)
  /\ (y <= -1 -> sampleToInt16 y = (-32767)%Z).
Proof.
  intro H. rewrite !sampleToInt16_trunc.
  pose proof (truncQ_clamped x) as Hx. pose proof (truncQ_clamped y) as Hy.
  assert (Hm : forall a b, a <= b ->
                 (truncQ (clampUnit a * 32767)
                  <= truncQ (clampUnit b * 32767))%Z).
  { intros a b Hab. apply truncQ_mono.
    pose proof (clampUnit_mono Hab). lra. }
  repeat split; try lia.
  - now apply Hm.
  - intro H1. pose proof (Hm 1 x H1) as H2.
    change (truncQ (clampUnit 1 * 32767)) with 32767%Z in H2. lia.
  - intro H1. pose proof (Hm y (-1) H1) as H2.
    change (truncQ (clampUnit (-1) * 32767)) with (-32767)%Z in H2. lia.
Qed.

Lemma sampleToInt16_order_witness :
  1 # 4 <= 1 # 2
  /\ (-32767 <= sampleToInt16 (1 # 4) <= sampleToInt16 (1 # 2))%Z.
Proof.
  assert (H : 1 # 4 <= 1 # 2) by (vm_compute; discriminate).
  split; [exact H|]. exact (proj1 (@sampleToInt16_order (1 # 4) (1 # 2) H)).
Defined.

(** X16.  Encoding a decoded sample does not give the 16-bit value
    back: [v / 32768] is written as [v] moved one step towards zero
    (zero stays zero), because the encoder scales by 32767 and
    truncates. *)
Theorem encode_of_decoded v :
  (-32768 <= v <= 32767)%Z ->
  sampleToInt16 (inject_Z v / 32768) = (v - Z.sgn v)%Z.
Proof.
  intro Hv. rewrite sampleToInt16_trunc.
  assert (Hvq : -32768 <= inject_Z v <= 32767).
  { change (-32768) with (inject_Z (-32768)).
    change 32767 with (inject_Z 32767). rewrite <- !Zle_Qle. lia. }
  assert (Hx : inUnitRange (inject_Z v / 32768)).
  { unfold inUnitRange.
    assert (E : inject_Z v / 32768 == inject_Z v * (1 # 32768)) by field.
    rewrite E. lra. }
  pose proof (clampUnit_id Hx) as Hc.
  set (y := clampUnit (inject_Z v / 32768) * 32767) in *.
  assert (Hy : y == inject_Z v - inject_Z v * (1 # 32768)).
  { unfold y. rewrite Hc. field. }
  destruct (truncQ_bounds y) as [Hpos Hneg].
  set (t := truncQ y) in *.
  destruct (Z.lt_trichotomy v 0) as [Hn|[Hz|Hp]].
  - assert (Hvn : inject_Z v < 0)
      by (change 0 with (inject_Z 0); rewrite <- Zlt_Qlt; lia).
    destruct (Hneg ltac:(lra)) as (H1 & H2 & H3).
    assert (Ha : inject_Z v < inject_Z t) by lra.
    assert (Hb : inject_Z t < inject_Z (v + 2)).
    { rewrite inject_Z_plus. change (inject_Z 2) with 2. lra. }
    apply inject_Z_lt_inv in Ha, Hb.
    rewrite Z.sgn_neg by lia. lia.
  - subst v. change (inject_Z 0) with 0 in *.
    destruct (Hpos ltac:(lra)) as (H1 & H2 & H3).
    assert (Ha : inject_Z t < inject_Z 1) by (change (inject_Z 1) with 1; lra).
    assert (Hb : inject_Z (-1) < inject_Z t)
      by (change (inject_Z (-1)) with (-1); lra).
    apply inject_Z_lt_inv in Ha, Hb. cbn. lia.
  - assert (Hvp : 0 < inject_Z v)
      by (change 0 with (inject_Z 0); rewrite <- Zlt_Qlt; lia).
    destruct (Hpos ltac:(lra)) as (H1 & H2 & H3).
    assert (Ha : inject_Z t < inject_Z v) by lra.
    assert (Hb : inject_Z (v - 2) < inject_Z t).
    { unfold Z.sub. rewrite inject_Z_plus.
      change (inject_Z (- (2))) with (-2). lra. }
    apply inject_Z_lt_inv in Ha, Hb.
    rewrite Z.sgn_pos by lia. lia.
Qed.

Lemma encode_of_decoded_witness :
  (-32768 <= 1000 <= 32767)%Z
  /\ sampleToInt16 (inject_Z 1000 / 32768) = (1000 - Z.sgn 1000)%Z.
Proof.
  assert (H : (-32768 <= 1000 <= 32767)%Z) by lia.
  split; [exact H|]. exact (@encode_of_decoded 1000%Z H).
Defined.

(** *** The decoder on any byte sequence *)

Lemma getInt16_some data off :
  (0 <= off)%Z -> (off + 1 < Z.of_nat (List.length data))%Z ->
  getInt16 data off = Some (int16At data off).
Proof.
  intros H0 H1. unfold getInt16, taGet, int16At.
  destruct (Z.ltb_spec off 0); [lia|].
  destruct (Z.ltb_spec (off + 1) 0); [lia|].
  rewrite (nth_error_nth' data 0%Z) by lia.
  rewrite (nth_error_nth' data 0%Z) by lia.
  reflexivity.
Qed.

Lemma getInt16_none data off :
  (Z.of_nat (List.length data) <= off + 1)%Z -> getInt16 data off = None.
Proof.
  intro H. unfold getInt16.
  destruct (taGet data off); [|reflexivity].
  unfold taGet. destruct (Z.ltb_spec (off + 1) 0); [reflexivity|].
  assert (E : nth_error data (Z.to_nat (off + 1)) = None)
    by (apply nth_error_None; lia).
  now rewrite E.
Qed.

Lemma decodeFrames_fill data nc c fuel : forall done,
  (forall j, (List.length done <= j < List.length done + fuel)%nat ->
     0 <= (Z.of_nat j * nc + c) * 2
     /\ (Z.of_nat j * nc + c) * 2 + 1 < Z.of_nat (List.length data))%Z ->
  decodeFrames data nc c fuel (Z.of_nat (List.length done))
    (done ++ repeat 0 fuel)
  = Some (done ++ map (fun i => frameSample data nc c (Z.of_nat i))
                    (seq (List.length done) fuel))%list.
Proof.
  induction fuel as [|fuel IH]; intros done H.
  - reflexivity.
  - cbn [decodeFrames repeat seq map].
    destruct (H (List.length done) ltac:(lia)) as [H0 H1].
    rewrite getInt16_some by assumption.
    unfold taSet.
    destruct (Z.ltb_spec (Z.of_nat (List.length done)) 0); [lia|].
    rewrite Nat2Z.id, updateAt_middle by reflexivity.
    specialize (IH (done ++ [frameSample data nc c
                               (Z.of_nat (List.length done))])%list).
    rewrite length_app in IH. cbn [List.length] in IH.
    replace (List.length done + 1)%nat with (S (List.length done)) in IH by lia.
    rewrite <- !app_assoc in IH. cbn [app] in IH.
    replace (Z.of_nat (List.length done) + 1)%Z
      with (Z.of_nat (S (List.length done))) by lia.
    apply IH. intros j Hj. apply H. lia.
Qed.

Lemma decodeChannels_fill data nc frames todo : forall start,
  (forall c j, (start <= c < start + todo)%nat -> (j < frames)%nat ->
     0 <= (Z.of_nat j * nc + Z.of_nat c) * 2
     /\ (Z.of_nat j * nc + Z.of_nat c) * 2 + 1
        < Z.of_nat (List.length data))%Z ->
  decodeChannels data nc frames frames todo (Z.of_nat start)
  = Some (map (fun c =>
                 map (fun i => frameSample data nc (Z.of_nat c) (Z.of_nat i))
                   (seq 0 frames))
              (seq start todo)).
Proof.
  induction todo as [|todo IH]; intros start H; [reflexivity|].
  cbn [decodeChannels seq map].
  pose proof (@decodeFrames_fill data nc (Z.of_nat start) frames []) as E.
  cbn [List.length app Z.of_nat] in E. rewrite E.
  - replace (Z.of_nat start + 1)%Z with (Z.of_nat (S start)) by lia.
    rewrite IH; [reflexivity|].
    intros c j Hc Hj. apply H; lia.
  - intros j Hj. apply H; lia.
Qed.

Lemma frameCount_aligned (len : nat) (nc : positive) (frames : nat) :
  len = (2 * Pos.to_nat nc * frames)%nat ->
  inject_Z (Z.of_nat len) / 2 / inject_Z (Zpos nc)
  == inject_Z (Z.of_nat frames).
Proof.
  intros ->. rewrite !Nat2Z.inj_mul, positive_nat_Z, !inject_Z_mult.
  change (inject_Z (Z.of_nat 2)) with 2.
  assert (H : ~ inject_Z (Zpos nc) == 0).
  { change 0 with (inject_Z 0). rewrite inject_Z_injective. lia. }
  field. exact H.
Qed.

Lemma wrapInt16_range z : (-32768 <= wrapInt16 z < 32768)%Z.
Proof.
  unfold wrapInt16. pose proof (Z.mod_pos_bound z 65536 ltac:(lia)).
  destruct (Z.ltb_spec (z mod 65536) 32768); lia.
Qed.

Lemma frameSample_unit data nc c i : unitSample (frameSample data nc c i).
Proof.
  unfold unitSample, frameSample.
  pose proof (wrapInt16_range
                (nth (Z.to_nat ((i * nc + c) * 2)) data 0
                 + 256 * nth (Z.to_nat ((i * nc + c) * 2 + 1)) data 0)%Z)
    as [H1 H2].
  fold (int16At data ((i * nc + c) * 2)) in H1, H2.
  rewrite Zle_Qle in H1. rewrite Zlt_Qlt in H2.
  change (inject_Z (-32768)) with (-32768) in H1.
  change (inject_Z 32768) with 32768 in H2.
  set (w := inject_Z (int16At data ((i * nc + c) * 2))) in *.
  assert (E : w / 32768 == w * (1 # 32768)) by field.
  rewrite E. lra.
Qed.

(** On a whole number of frames, at least one, every read of the loops
    is inside the bytes and every write inside the channel. *)
Lemma decode_whole_frames data nc frames :
  (0 < frames)%nat ->
  List.length data = (2 * Pos.to_nat nc * frames)%nat ->
  manualDecodeAudioData data nc = Some (deinterleave data nc frames).
Proof.
  intros Hpos Hlen.
  unfold manualDecodeAudioData.
  pose proof (frameCount_aligned nc frames Hlen) as E.
  set (fc := inject_Z (Z.of_nat (List.length data)) / 2
             / inject_Z (Zpos nc)) in *.
  destruct (Qle_bool fc 0) eqn:E0.
  - apply Qle_bool_iff in E0. rewrite E in E0.
    change 0 with (inject_Z 0) in E0. apply inject_Z_le_inv in E0.
    lia.
  - rewrite (Qceiling_comp _ _ E), (Qfloor_comp _ _ E), Qceiling_Z, Qfloor_Z.
    rewrite Nat2Z.id.
    change 0%Z with (Z.of_nat 0) at 1.
    rewrite decodeChannels_fill; [reflexivity|].
    intros c j Hc Hj. rewrite Hlen.
    rewrite !Nat2Z.inj_mul, positive_nat_Z.
    assert (Hcn : (Z.of_nat c < Zpos nc)%Z) by lia.
    change (Z.of_nat 2) with 2%Z. nia.
Qed.

(** X17.  When the bytes are a whole number of frames, at least one,
    the decoder returns one array per channel with one sample per
    frame: sample [i] of channel [c] is the little-endian signed 16-bit
    value at byte [(i * channels + c) * 2] divided by 32768, hence at
    least -1 and below 1. *)
Theorem manualDecodeAudioData_aligned data nc frames :
  (0 < frames)%nat ->
  List.length data = (2 * Pos.to_nat nc * frames)%nat ->
  manualDecodeAudioData data nc = Some (deinterleave data nc frames)
  /\ Forall (Forall unitSample) (deinterleave data nc frames).
Proof.
  intros Hpos Hlen. split.
  - exact (@decode_whole_frames data nc frames Hpos Hlen).
  - unfold deinterleave. apply Forall_map, Forall_forall. intros c _.
    apply Forall_map, Forall_forall. intros i _. apply frameSample_unit.
Qed.

Lemma manualDecodeAudioData_aligned_witness :
  (0 < 2)%nat
  /\ List.length stereoExample = (2 * Pos.to_nat 2 * 2)%nat
  /\ manualDecodeAudioData stereoExample 2
     = Some (deinterleave stereoExample 2 2).
Proof.
  assert (H : List.length stereoExample = (2 * Pos.to_nat 2 * 2)%nat)
    by reflexivity.
  assert (H2 : (0 < 2)%nat) by lia.
  split; [exact H2|]. split; [exact H|].
  exact (proj1 (@manualDecodeAudioData_aligned stereoExample 2%positive 2%nat
                  H2 H)).
Defined.

Lemma decodeFrames_fail data nc c fuel : forall i chData j,
  (i <= j < i + Z.of_nat fuel)%Z ->
  getInt16 data ((j * nc + c) * 2) = None ->
  decodeFrames data nc c fuel i chData = None.
Proof.
  induction fuel as [|fuel IH]; intros i chData j Hj Hnone; [lia|].
  cbn [decodeFrames].
  destruct (getInt16 data ((i * nc + c) * 2)) as [v|] eqn:E; [|reflexivity].
  destruct (Z.eq_dec j i) as [->|Hne]; [congruence|].
  apply IH with (j := j); [lia|exact Hnone].
Qed.

Lemma decodeChannels_fail data nc iters len todo : forall ch c,
  (ch <= c < ch + Z.of_nat todo)%Z ->
  decodeFrames data nc c iters 0 (repeat 0 len) = None ->
  decodeChannels data nc iters len todo ch = None.
Proof.
  induction todo as [|todo IH]; intros ch c Hc Hnone; [lia|].
  cbn [decodeChannels].
  destruct (decodeFrames data nc ch iters 0 (repeat 0 len)) as [r|] eqn:E;
    [|reflexivity].
  destruct (Z.eq_dec c ch) as [->|Hne]; [congruence|].
  rewrite (IH (ch + 1)%Z c); [reflexivity|lia|exact Hnone].
Qed.

(** X18.  On data that is not empty the decoder fails exactly when the
    byte length is not a whole number of frames of two bytes per
    channel: trailing bytes are not ignored, they lead to a read past
    the end of the bytes (or, with less than one frame of data, to a
    buffer of no sample). *)
Theorem manualDecodeAudioData_fails_iff data nc :
  data <> [] ->
  (manualDecodeAudioData data nc = None <-> ~ frameAligned data nc).
Proof.
  intro Hne. unfold frameAligned.
  assert (HL : (0 < Z.of_nat (List.length data))%Z)
    by (destruct data; [congruence|cbn [List.length]; lia]).
  set (L := Z.of_nat (List.length data)).
  set (m := (2 * Zpos nc)%Z).
  assert (Hm : (0 < m)%Z) by (unfold m; lia).
  split.
  - intros Hnone Hal.
    assert (Hl : List.length data
                 = (2 * Pos.to_nat nc * Z.to_nat (L / m))%nat).
    { pose proof (Z.div_mod L m ltac:(lia)) as Hd. rewrite Hal in Hd.
      assert (0 <= L / m)%Z by (apply Z.div_pos; unfold L; lia).
      unfold L, m in *. lia. }
    assert (Hf : (0 < Z.to_nat (L / m))%nat).
    { pose proof (Z.div_mod L m ltac:(lia)) as Hd. rewrite Hal in Hd.
      unfold L in *. nia. }
    pose proof (@decode_whole_frames data nc _ Hf Hl) as E.
    congruence.
  - intro Hna.
    pose proof (Z.div_mod L m ltac:(lia)) as Hd.
    pose proof (Z.mod_pos_bound L m Hm) as Hr.
    assert (Hk : (0 <= L / m)%Z) by (apply Z.div_pos; unfold L; lia).
    set (k := (L / m)%Z) in *. set (r := (L mod m)%Z) in *.
    unfold manualDecodeAudioData. fold L.
    set (fc := inject_Z L / 2 / inject_Z (Zpos nc)).
    assert (Hfc : inject_Z k < fc).
    { unfold fc.
      assert (Hp : 0 < inject_Z (Zpos nc))
        by (change 0 with (inject_Z 0); rewrite <- Zlt_Qlt; lia).
      assert (E : inject_Z L / 2 / inject_Z (Z.pos nc)
                  == inject_Z k + inject_Z r / 2 / inject_Z (Zpos nc)).
      { rewrite Hd. unfold m.
        rewrite inject_Z_plus, !inject_Z_mult. change (inject_Z 2) with 2.
        field. lra. }
      rewrite E.
      assert (Hrq : 0 < inject_Z r)
        by (change 0 with (inject_Z 0); rewrite <- Zlt_Qlt; lia).
      assert (0 < inject_Z r / 2 / inject_Z (Zpos nc)).
      { unfold Qdiv. apply Qmult_lt_0_compat; [|now apply Qinv_lt_0_compat].
        apply Qmult_lt_0_compat; [exact Hrq|reflexivity]. }
      lra. }
    assert (Hpos : 0 < fc).
    { assert (0 <= inject_Z k)
        by (change 0 with (inject_Z 0); rewrite <- Zle_Qle; lia).
      lra. }
    destruct (Qle_bool fc 0) eqn:E0; [apply Qle_bool_iff in E0; lra|].
    assert (Hit : (k < Qceiling fc)%Z).
    { apply inject_Z_lt_inv. pose proof (Qle_ceiling fc). lra. }
    apply decodeChannels_fail with (c := (Zpos nc - 1)%Z).
    + rewrite positive_nat_Z. lia.
    + apply decodeFrames_fail with (j := k).
      * lia.
      * apply getInt16_none. fold L. unfold m in *. nia.
Qed.

Lemma manualDecodeAudioData_fails_witness :
  brokenExample <> []
  /\ manualDecodeAudioData brokenExample 2 = None
  /\ ~ frameAligned brokenExample 2.
Proof.
  assert (Hne : brokenExample <> []) by discriminate.
  assert (H : ~ frameAligned brokenExample 2) by (vm_compute; discriminate).
  split; [exact Hne|]. split; [|exact H].
  exact (proj2 (@manualDecodeAudioData_fails_iff brokenExample 2 Hne) H).
Defined.

End CodecProofs.

(** ** The mixer *)

Section MixerProofs.
Import AudioMixer.
Local Open Scope R_scope.

(** *** Writing into the output array *)

Lemma updateAt_length {A} (v : A) a : forall n,
  List.length (updateAt n v a) = List.length a.
Proof.
  induction a as [|x a IH]; intros [|n]; simpl; auto.
Qed.

Lemma updateAt_nth {A} (v d : A) a : forall n k,
  (n < List.length a)%nat ->
  nth k (updateAt n v a) d = if (k =? n)%nat then v else nth k a d.
Proof.
  induction a as [|x a IH]; intros [|n] [|k] H; simpl in *; try lia; auto.
  apply IH. lia.
Qed.

Lemma addAt_length out idx v : List.length (addAt out idx v) = List.length out.
Proof.
  unfold addAt, taGet, taSet.
  destruct (idx <? 0)%Z; [reflexivity|].
  destruct (nth_error out (Z.to_nat idx)); [apply updateAt_length|reflexivity].
Qed.

Lemma addAt_nth out idx v k :
  nth k (addAt out idx v) 0
  = if (Z.of_nat k =? idx)%Z then
      (if (k <? List.length out)%nat then nth k out 0 + v else 0)
    else nth k out 0.
Proof.
  unfold addAt, taGet, taSet.
  destruct (Z.ltb_spec idx 0) as [Hneg|Hpos].
  - destruct (Z.eqb_spec (Z.of_nat k) idx); [lia|reflexivity].
  - destruct (nth_error out (Z.to_nat idx)) as [x|] eqn:E.
    + assert (Hlt : (Z.to_nat idx < List.length out)%nat).
      { apply nth_error_Some. congruence. }
      rewrite updateAt_nth by exact Hlt.
      destruct (Z.eqb_spec (Z.of_nat k) idx) as [Hk|Hk].
      * assert (Ek : k = Z.to_nat idx) by lia. subst k.
        rewrite Nat.eqb_refl.
        destruct (Nat.ltb_spec (Z.to_nat idx) (List.length out)); [|lia].
        now rewrite (nth_error_nth _ _ 0 E).
      * destruct (Nat.eqb_spec k (Z.to_nat idx)); [lia|reflexivity].
    + apply nth_error_None in E.
      destruct (Z.eqb_spec (Z.of_nat k) idx) as [Hk|Hk]; [|reflexivity].
      destruct (Nat.ltb_spec k (List.length out)); [lia|].
      apply nth_overflow. lia.
Qed.

Lemma mixInto_length src : forall out start i g,
  List.length (mixInto out src start i g) = List.length out.
Proof.
  induction src as [|s src IH]; intros out start i g; cbn [mixInto]; [reflexivity|].
  rewrite IH. destruct (_ <? _)%Z; [apply addAt_length|reflexivity].
Qed.

(** What the inner loop leaves at index [k]: the old value, plus the
    scaled source sample that lands there, if any. *)
Lemma mixInto_nth src : forall out start i g k,
  (k < List.length out)%nat ->
  nth k (mixInto out src start i g) 0
  = nth k out 0
    + (if ((start + i <=? Z.of_nat k)
           && (Z.of_nat k <? start + i + Z.of_nat (List.length src)))%Z
       then nth (Z.to_nat (Z.of_nat k - (start + i))) src 0 * g
       else 0).
Proof.
  induction src as [|s src IH]; intros out start i g k Hk.
  - cbn [mixInto List.length].
    destruct (Z.leb_spec (start + i) (Z.of_nat k));
      destruct (Z.ltb_spec (Z.of_nat k) (start + i + Z.of_nat 0));
      cbn [andb]; try lia; lra.
  - cbn [mixInto]. rewrite IH.
    2:{ destruct (_ <? _)%Z; [now rewrite addAt_length|exact Hk]. }
    assert (Hk' : (Z.of_nat k < Z.of_nat (List.length out))%Z) by lia.
    assert (Hnth :
      nth k (if (start + i <? Z.of_nat (List.length out))%Z
             then addAt out (start + i) (s * g) else out) 0
      = nth k out 0 + (if (Z.of_nat k =? start + i)%Z then s * g else 0)).
    { destruct (Z.ltb_spec (start + i) (Z.of_nat (List.length out))).
      - rewrite addAt_nth.
        destruct (Z.eqb_spec (Z.of_nat k) (start + i)); [|lra].
        destruct (Nat.ltb_spec k (List.length out)); [reflexivity|lia].
      - destruct (Z.eqb_spec (Z.of_nat k) (start + i)); [lia|lra]. }
    rewrite Hnth. cbn [List.length].
    destruct (Z.eqb_spec (Z.of_nat k) (start + i)) as [E|E].
    + destruct (Z.leb_spec (start + (i + 1)) (Z.of_nat k)); [lia|].
      destruct (Z.leb_spec (start + i) (Z.of_nat k)); [|lia].
      destruct (Z.ltb_spec (Z.of_nat k)
                  (start + i + Z.of_nat (S (List.length src)))); [|lia].
      cbn [andb].
      replace (Z.to_nat (Z.of_nat k - (start + i))) with 0%nat by lia.
      cbn [nth]. lra.
    + destruct (Z.leb_spec (start + (i + 1)) (Z.of_nat k)) as [H1|H1];
        destruct (Z.leb_spec (start + i) (Z.of_nat k)) as [H2|H2]; try lia;
        destruct (Z.ltb_spec (Z.of_nat k)
                    (start + (i + 1) + Z.of_nat (List.length src))) as [H3|H3];
        destruct (Z.ltb_spec (Z.of_nat k)
                    (start + i + Z.of_nat (S (List.length src)))) as [H4|H4];
        try lia; cbn [andb]; try lra.
      replace (Z.to_nat (Z.of_nat k - (start + i)))
        with (S (Z.to_nat (Z.of_nat k - (start + (i + 1))))) by lia.
      cbn [nth]. lra.
Qed.

Lemma nth_ext_R (l l' : list R) :
  List.length l = List.length l' ->
  (forall k, (k < List.length l)%nat -> nth k l 0 = nth k l' 0) ->
  l = l'.
Proof.
  intros Hlen H. apply nth_ext with (d := 0) (d' := 0); auto.
Qed.

(** *** The soft limiter *)

Lemma softLimit_untouched s : Rabs s <= 3 / 4 -> softLimit s = s.
Proof.
  intro H. unfold softLimit, threshold, knee.
  destruct (Rlt_dec _ _) as [Hlt|_]; [lra|reflexivity].
Qed.

(** Above the threshold the output is the 12:1 line, sign kept. *)
Lemma softLimit_hard s :
  8 / 10 <= Rabs s ->
  softLimit s = s * ((8 / 10 + (Rabs s - 8 / 10) / 12) / Rabs s)
  /\ Rabs (softLimit s) = 8 / 10 + (Rabs s - 8 / 10) / 12.
Proof.
  intro H. unfold softLimit, threshold, knee, ratio.
  destruct (Rlt_dec _ _) as [_|Hn]; [|lra].
  destruct (Rlt_dec _ _) as [Hlt|_]; [lra|].
  split; [reflexivity|].
  set (a := Rabs s) in *.
  rewrite Rabs_mult. fold a.
  rewrite Rabs_pos_eq.
  - field. lra.
  - apply Rmult_le_pos; [lra|]. apply Rlt_le, Rinv_0_lt_compat. lra.
Qed.

(** In the knee the gain is [1 + 11 k^2] with [k] the position in the
    knee: it is above 1, so the magnitude grows. *)
Lemma softLimit_knee s :
  3 / 4 < Rabs s < 8 / 10 ->
  softLimit s = s * (1 + 11 * ((Rabs s - 3 / 4) * 10) * ((Rabs s - 3 / 4) * 10))
  /\ Rabs s < Rabs (softLimit s).
Proof.
  intros [H1 H2]. unfold softLimit, threshold, knee, ratio.
  destruct (Rlt_dec _ _) as [_|Hn]; [|lra].
  destruct (Rlt_dec _ _) as [_|Hn]; [|lra].
  set (a := Rabs s) in *.
  assert (E : 1 + (1 + (12 - 1) * ((a - (8 / 10 - 1 / 10 / 2)) / (1 / 10)) - 1)
                  * ((a - (8 / 10 - 1 / 10 / 2)) / (1 / 10))
              = 1 + 11 * ((a - 3 / 4) * 10) * ((a - 3 / 4) * 10)) by field.
  rewrite E. split; [reflexivity|].
  rewrite Rabs_mult. fold a.
  assert (Hg : 1 < 1 + 11 * ((a - 3 / 4) * 10) * ((a - 3 / 4) * 10)) by nra.
  rewrite (Rabs_pos_eq (1 + _)) by lra.
  nra.
Qed.

(** The sample is always multiplied by a positive gain. *)
Lemma softLimit_sign s : exists gain, 0 < gain /\ softLimit s = s * gain.
Proof.
  destruct (Rle_dec (Rabs s) (3 / 4)) as [H|H].
  - exists 1. split; [lra|]. rewrite softLimit_untouched by exact H. ring.
  - destruct (Rlt_dec (Rabs s) (8 / 10)) as [Hk|Hk].
    + destruct (@softLimit_knee s) as [E _]; [lra|].
      eexists. split; [|exact E]. nra.
    + destruct (@softLimit_hard s) as [E _]; [lra|].
      eexists. split; [|exact E].
      apply Rmult_lt_0_compat; [lra|]. apply Rinv_0_lt_compat. lra.
Qed.

(** C2, at the sample the code gets wrong.  The sample 0.79 lies in
    the knee; the limiter returns 2.1804, the input times 2.76, a
    larger magnitude instead of a reduced one. *)
Theorem softLimit_knee_amplifies :
  softLimit (79 / 100) = 21804 / 10000
  /\ Rabs (79 / 100) < Rabs (softLimit (79 / 100)).
Proof.
  assert (Ha : Rabs (79 / 100) = 79 / 100) by (apply Rabs_pos_eq; lra).
  destruct (@softLimit_knee (79 / 100)) as [E Hlt]; [rewrite Ha; lra|].
  split; [|exact Hlt].
  rewrite E, Ha. field.
Qed.

(** *** Overlap compression *)

Lemma compressSample_le tl i s : Rabs (compressSample tl i s) <= Rabs s.
Proof.
  unfold compressSample, overlapThreshold, overlapRatio.
  destruct (1 <? _)%nat; [|lra].
  destruct (Rlt_dec _ _) as [H|_]; [|lra].
  set (a := Rabs s) in *.
  unfold Rdiv at 1. rewrite !Rabs_mult, Rabs_inv. fold a.
  rewrite (Rabs_pos_eq a) by lra.
  rewrite (Rabs_pos_eq (5 / 10 + _)) by lra.
  replace (a * / a) with 1 by (field; lra). lra.
Qed.

Lemma compressSample_abs tl i s :
  Rabs (compressSample tl i s)
  = compressedMagnitude (overlappingChannels tl i) (Rabs s).
Proof.
  unfold compressSample, compressedMagnitude, overlapThreshold, overlapRatio.
  destruct (1 <? _)%nat; [|reflexivity].
  replace (5 / 10) with (1 / 2) by lra.
  destruct (Rlt_dec _ _) as [H|_]; [|reflexivity].
  set (a := Rabs s) in *.
  unfold Rdiv at 1. rewrite !Rabs_mult, Rabs_inv. fold a.
  rewrite (Rabs_pos_eq a) by lra.
  rewrite (Rabs_pos_eq (1 / 2 + _)) by lra.
  field. lra.
Qed.

Lemma compressSample_alone tl i s :
  (overlappingChannels tl i <= 1)%nat -> compressSample tl i s = s.
Proof.
  intro H. unfold compressSample.
  destruct (Nat.ltb_spec 1 (overlappingChannels tl i)); [lia|reflexivity].
Qed.

Lemma compressFrom_length tl l : forall i,
  List.length (compressFrom tl i l) = List.length l.
Proof. induction l as [|s l IH]; intro i; simpl; auto. Qed.

Lemma compressFrom_nth tl l : forall i k,
  (k < List.length l)%nat ->
  nth k (compressFrom tl i l) 0
  = compressSample tl (i + Z.of_nat k) (nth k l 0).
Proof.
  induction l as [|s l IH]; intros i [|k] H; cbn [List.length] in H; try lia.
  - cbn [compressFrom nth]. now rewrite Z.add_0_r.
  - cbn [compressFrom nth]. rewrite IH by lia. f_equal. lia.
Qed.

(** *** The whole mix *)

Lemma createBuffer_pos n :
  (0 < n)%Z -> createBuffer n = Some (repeat 0 (Z.to_nat n)).
Proof.
  intro H. unfold createBuffer.
  destruct (Z.ltb_spec 0 n); [reflexivity|lia].
Qed.

(** With a positive length the allocation succeeds and the loop over
    the clips runs to its end, whatever the clips are. *)
Lemma accumulate_some buffers d :
  (0 < bufferSize d)%nat ->
  accumulate buffers d
  = Some (fold_left (mixClip (List.length buffers)) buffers
            (repeat 0 (bufferSize d), [])).
Proof.
  intro H. unfold accumulate, bufferSize in *.
  rewrite createBuffer_pos by lia. reflexivity.
Qed.

Lemma mixClip_fst n c out tl tl' :
  fst (mixClip n (out, tl) c) = fst (mixClip n (out, tl') c).
Proof. reflexivity. Qed.

Lemma fold_mixClip_fst n cs : forall out tl tl',
  fst (fold_left (mixClip n) cs (out, tl))
  = fst (fold_left (mixClip n) cs (out, tl')).
Proof.
  induction cs as [|c cs IH]; intros out tl tl'; [reflexivity|].
  cbn [fold_left]. unfold mixClip at 2 4. apply IH.
Qed.

Lemma fold_mixClip_length n cs : forall st,
  List.length (fst (fold_left (mixClip n) cs st)) = List.length (fst st).
Proof.
  induction cs as [|c cs IH]; intros [out tl]; [reflexivity|].
  cbn [fold_left]. rewrite IH. unfold mixClip. cbn [fst].
  apply mixInto_length.
Qed.

Lemma fold_mixClip_snd n cs : forall out tl,
  snd (fold_left (mixClip n) cs (out, tl)) = (tl ++ map channelOf cs)%list.
Proof.
  induction cs as [|c cs IH]; intros out tl; cbn [fold_left map].
  - now rewrite app_nil_r.
  - unfold mixClip at 2. rewrite IH, <- app_assoc. reflexivity.
Qed.


Lemma accumulate_none buffers d :
  (Qceiling (fmul d targetSampleRate) <= 0)%Z -> accumulate buffers d = None.
Proof.
  intro H. unfold accumulate, createBuffer.
  destruct (Z.ltb_spec 0 (Qceiling (fmul d targetSampleRate)));
    [lia|reflexivity].
Qed.

Lemma mixAudioBuffers_some buffers d out tl :
  accumulate buffers d = Some (out, tl) ->
  mixAudioBuffers buffers d
  = Some (compressOverlapRegions (applySoftLimiter out) tl).
Proof. intro E. unfold mixAudioBuffers. now rewrite E. Qed.

Lemma processed_nth out tl k :
  (k < List.length out)%nat ->
  nth k (compressOverlapRegions (applySoftLimiter out) tl) 0
  = compressSample tl (Z.of_nat k) (softLimit (nth k out 0)).
Proof.
  intro H. unfold compressOverlapRegions, applySoftLimiter.
  rewrite compressFrom_nth by (now rewrite length_map).
  rewrite (nth_indep _ 0 (softLimit 0)) by (now rewrite length_map).
  now rewrite map_nth.
Qed.

Lemma processed_length out tl :
  List.length (compressOverlapRegions (applySoftLimiter out) tl)
  = List.length out.
Proof.
  unfold compressOverlapRegions, applySoftLimiter.
  now rewrite compressFrom_length, length_map.
Qed.


(** Evaluation on concrete clips: everything but the real arithmetic
    is computed. *)
Ltac mix_eval :=
  cbv - [Rplus Rmult Rminus Rdiv Rinv Ropp sqrt IZR INR Rabs Rlt_dec
         softLimit compressSample].

Lemma INR_1_gain v : 0 + 1 * (1 / sqrt (INR 1) * v) = v.
Proof. cbn [INR]. rewrite sqrt_1. field. Qed.







(** *** Clips outside the buffer *)

(** The start sample and the buffer length come from double products:
    a clip at the double nearest to 0.7 starts at sample 16800, though
    the exact product of that double with 24000 lies below 16800; a clip
    at the double nearest to -0.001 starts at sample -24; the double
    nearest to 0.05 seconds allocates 1200 samples. *)
Lemma double_products :
  startSampleOf (mkClip [] (roundDouble (7 # 10)) "A" None) = 16800%Z
  /\ Qfloor (roundDouble (7 # 10) * targetSampleRate) = 16799%Z
  /\ startSampleOf (mkClip [] (roundDouble (- (1 # 1000))) "A" None)
     = (-24)%Z
  /\ bufferSize (roundDouble (5 # 100)) = 1200%nat.
Proof. vm_compute. repeat split. Qed.

Lemma overlappingChannels_app tl tl' i :
  overlappingChannels (tl ++ tl') i
  = (overlappingChannels tl i + overlappingChannels tl' i)%nat.
Proof. unfold overlappingChannels. now rewrite filter_app, length_app. Qed.

Lemma overlappingChannels_snoc tl ch i :
  overlappingChannels (tl ++ [ch]) i
  = (overlappingChannels tl i + if covers i ch then 1 else 0)%nat.
Proof.
  rewrite overlappingChannels_app. unfold overlappingChannels at 2.
  cbn [filter]. destruct (covers i ch); reflexivity.
Qed.

(** The loop over the samples of a clip that lies outside the buffer
    changes no sample: before index 0 the guard lets the write through
    and the typed array discards it, from the length on the guard stops
    it. *)
Lemma mixClip_outside_fst n out tl c :
  outsideBuffer (List.length out) c -> fst (mixClip n (out, tl) c) = out.
Proof.
  intro H. unfold mixClip. cbn [fst].
  apply nth_ext_R; [apply mixInto_length|].
  intros k Hk. rewrite mixInto_length in Hk.
  rewrite mixInto_nth by exact Hk.
  destruct H as [H|H];
    destruct (Z.leb_spec (startSampleOf c + 0) (Z.of_nat k));
    destruct (Z.ltb_spec (Z.of_nat k)
                (startSampleOf c + 0 + Z.of_nat (List.length (buffer c))));
    cbn [andb]; try lia; lra.
Qed.

Lemma fold_mixClip_outside n c before after out tl :
  outsideBuffer (List.length out) c ->
  fst (fold_left (mixClip n) (before ++ c :: after) (out, tl))
  = fst (fold_left (mixClip n) (before ++ after) (out, tl)).
Proof.
  intro H. rewrite !fold_left_app. cbn [fold_left].
  pose proof (fold_mixClip_length n before (out, tl)) as Hlen.
  destruct (fold_left (mixClip n) before (out, tl)) as [out1 tl1].
  cbn [fst] in Hlen.
  assert (E : mixClip n (out1, tl1) c = (out1, snd (mixClip n (out1, tl1) c))).
  { rewrite <- (@mixClip_outside_fst n out1 tl1 c) at 2
      by (now rewrite Hlen).
    unfold mixClip. reflexivity. }
  rewrite E. apply fold_mixClip_fst.
Qed.

Lemma covers_outside len c k :
  outsideBuffer len c -> (k < len)%nat ->
  covers (Z.of_nat k) (channelOf c) = false.
Proof.
  intros H Hk. unfold covers, channelOf. cbn [ch_start ch_end].
  destruct H as [H|H];
    destruct (Z.leb_spec (startSampleOf c) (Z.of_nat k));
    destruct (Z.ltb_spec (Z.of_nat k)
                (startSampleOf c + Z.of_nat (List.length (buffer c))));
    cbn [andb]; try reflexivity; lia.
Qed.

Lemma compressSample_cover tl tl' i s :
  overlappingChannels tl i = overlappingChannels tl' i ->
  compressSample tl i s = compressSample tl' i s.
Proof. intro E. unfold compressSample. now rewrite E. Qed.

Lemma processed_cover out tl tl' :
  (forall k, (k < List.length out)%nat ->
     overlappingChannels tl (Z.of_nat k)
     = overlappingChannels tl' (Z.of_nat k)) ->
  compressOverlapRegions (applySoftLimiter out) tl
  = compressOverlapRegions (applySoftLimiter out) tl'.
Proof.
  intro H. apply nth_ext_R; [now rewrite !processed_length|].
  intros k Hk. rewrite processed_length in Hk.
  rewrite !processed_nth by exact Hk.
  now apply compressSample_cover, H.
Qed.

(** C6, as the code has it.  Let the buffer be allocated (a positive
    length), and let the whole sample range of a clip lie outside it,
    before index 0 or from the buffer's length on.  Then the call
    returns, nothing is raised, and the clip contributes to no sample:
    the accumulated buffer is the one the loop builds from the other
    clips alone (at the gain count of the whole list, the clip
    included), the clip is counted at no index by the overlap
    compressor, and the returned buffer is the one obtained from the
    other clips. *)
Theorem mixClip_outside_buffer before c after d :
  let buffers := (before ++ c :: after)%list in
  let others :=
    fold_left (mixClip (List.length buffers)) (before ++ after)
      (repeat 0 (bufferSize d), []) in
  (0 < bufferSize d)%nat ->
  outsideBuffer (bufferSize d) c ->
  exists out tl,
    accumulate buffers d = Some (out, tl)
    /\ out = fst others
    /\ (forall k, (k < bufferSize d)%nat ->
          overlappingChannels tl (Z.of_nat k)
          = overlappingChannels (snd others) (Z.of_nat k))
    /\ mixAudioBuffers buffers d
       = Some (compressOverlapRegions (applySoftLimiter (fst others))
                 (snd others)).
Proof.
  intros buffers others Hpos Hout.
  pose proof (@accumulate_some buffers d Hpos) as E.
  set (st := fold_left (mixClip (List.length buffers)) buffers
               (repeat 0 (bufferSize d), [])) in E.
  assert (Est : st = (fst st, snd st)) by now destruct st.
  rewrite Est in E.
  assert (E1 : fst st = fst others).
  { unfold st, others, buffers. apply fold_mixClip_outside.
    now rewrite repeat_length. }
  assert (E2 : forall k, (k < bufferSize d)%nat ->
            overlappingChannels (snd st) (Z.of_nat k)
            = overlappingChannels (snd others) (Z.of_nat k)).
  { intros k Hk. unfold st, others, buffers.
    rewrite !fold_mixClip_snd. cbn [app].
    rewrite !map_app. cbn [map].
    change (channelOf c :: map channelOf after)
      with ([channelOf c] ++ map channelOf after)%list.
    rewrite !overlappingChannels_app.
    unfold overlappingChannels at 2. cbn [filter].
    rewrite (@covers_outside _ _ _ Hout Hk). cbn [List.length]. lia. }
  exists (fst st), (snd st).
  split; [exact E|]. split; [exact E1|]. split; [exact E2|].
  rewrite (@mixAudioBuffers_some _ _ _ _ E). f_equal. rewrite E1.
  apply processed_cover. intros k Hk. apply E2.
  unfold others in Hk. rewrite fold_mixClip_length in Hk. cbn [fst] in Hk.
  now rewrite repeat_length in Hk.
Qed.

Lemma mixClip_outside_buffer_witness :
  ((Z.of_nat (bufferSize oneSample) <= startSampleOf lateClip)%Z
   /\ mixAudioBuffers [quietClip; lateClip] oneSample
      = Some (compressOverlapRegions
                (applySoftLimiter
                   (fst (fold_left (mixClip 2) [quietClip]
                           (repeat 0 (bufferSize oneSample), []))))
                (snd (fold_left (mixClip 2) [quietClip]
                        (repeat 0 (bufferSize oneSample), [])))))
  /\ ((startSampleOf pastClip + Z.of_nat (List.length (buffer pastClip))
       <= 0)%Z
      /\ mixAudioBuffers [pastClip; quietClip] oneSample
         = Some (compressOverlapRegions
                   (applySoftLimiter
                      (fst (fold_left (mixClip 2) [quietClip]
                              (repeat 0 (bufferSize oneSample), []))))
                   (snd (fold_left (mixClip 2) [quietClip]
                           (repeat 0 (bufferSize oneSample), []))))).
Proof.
  assert (Hpos : (0 < bufferSize oneSample)%nat) by (vm_compute; lia).
  assert (Hlate : (Z.of_nat (bufferSize oneSample) <= startSampleOf lateClip)%Z)
    by (vm_compute; discriminate).
  assert (Hpast : (startSampleOf pastClip
                   + Z.of_nat (List.length (buffer pastClip)) <= 0)%Z)
    by (vm_compute; discriminate).
  split; (split; [assumption|]).
  - destruct (@mixClip_outside_buffer [quietClip] lateClip [] oneSample
                Hpos (or_intror Hlate)) as (out & tl & _ & _ & _ & E).
    exact E.
  - destruct (@mixClip_outside_buffer [] pastClip [quietClip] oneSample
                Hpos (or_introl Hpast)) as (out & tl & _ & _ & _ & E).
    exact E.
Defined.

(** C6 as stated fails: a clip of two samples that starts one sample
    before the buffer puts its second sample at index 0. *)
Lemma negative_start_clip_contributes :
  (clip_startTime earlyClip < 0)%Q
  /\ mixAudioBuffers [earlyClip] oneSample = Some [49 / 60]
  /\ mixAudioBuffers [] oneSample = Some [0].
Proof.
  split; [reflexivity|]. split.
  - assert (E : accumulate [earlyClip] oneSample
                = Some ([1], [mkChannel (-1) 1 "A"])).
    { mix_eval. do 3 f_equal. apply INR_1_gain. }
    rewrite (@mixAudioBuffers_some _ _ _ _ E).
    unfold compressOverlapRegions, applySoftLimiter. cbn [map compressFrom].
    rewrite compressSample_alone by (vm_compute; lia).
    do 2 f_equal.
    assert (Ha : Rabs 1 = 1) by (apply Rabs_pos_eq; lra).
    destruct (@softLimit_hard 1) as [E1 _]; [rewrite Ha; lra|].
    rewrite E1, Ha. field.
  - assert (E : accumulate [] oneSample = Some ([0], [])) by reflexivity.
    rewrite (@mixAudioBuffers_some _ _ _ _ E).
    unfold compressOverlapRegions, applySoftLimiter. cbn [map compressFrom].
    rewrite compressSample_alone by (vm_compute; lia).
    do 2 f_equal. apply softLimit_untouched. rewrite Rabs_R0. lra.
Qed.

(** *** Placement of two unit clips *)

Lemma unitClip_gain len c :
  unitClip len c -> calculateNormalizedGain 2 (volume c) = 1 / sqrt 2.
Proof.
  intros [_ Hv]. unfold calculateNormalizedGain.
  replace (INR 2) with 2 by (cbn [INR]; lra).
  destruct (volume c) as [v|]; [subst v|]; lra.
Qed.

(** The contribution of a unit clip at index [k]. *)
Lemma unitClip_term len c k :
  unitClip len c ->
  (if ((startSampleOf c + 0 <=? Z.of_nat k)
       && (Z.of_nat k <? startSampleOf c + 0 + Z.of_nat (List.length (buffer c))))%Z
   then nth (Z.to_nat (Z.of_nat k - (startSampleOf c + 0))) (buffer c) 0
        * calculateNormalizedGain 2 (volume c)
   else 0)
  = if placedAt c k then 1 / sqrt 2 else 0.
Proof.
  intro H. rewrite (unitClip_gain H). unfold placedAt.
  rewrite Z.add_0_r.
  destruct ((startSampleOf c <=? Z.of_nat k)
            && (Z.of_nat k <? startSampleOf c + Z.of_nat (List.length (buffer c))))%Z
    eqn:E; [|reflexivity].
  apply andb_true_iff in E as [E1 E2].
  apply Z.leb_le in E1. apply Z.ltb_lt in E2.
  destruct H as [Hb _]. rewrite Hb in *. rewrite repeat_length in E2.
  rewrite nth_repeat_lt by lia. lra.
Qed.

(** C7.  Two clips of [len] samples ([len] at least 1, as in every
    audio buffer) of amplitude 1.0 and volume 1, placed inside the
    buffer on disjoint ranges: the accumulation step returns a buffer
    that holds [1 / sqrt 2] at the positions of either clip and exactly
    0 everywhere else. *)
Theorem accumulate_two_unit_clips c1 c2 dur len :
  let size := bufferSize dur in
  (0 < len)%nat ->
  unitClip len c1 -> unitClip len c2 ->
  insideBuffer size c1 -> insideBuffer size c2 ->
  disjointClips c1 c2 ->
  exists out tl,
    accumulate [c1; c2] dur = Some (out, tl)
    /\ List.length out = size
    /\ forall k, (k < size)%nat ->
         nth k out 0 = if placedAt c1 k || placedAt c2 k then 1 / sqrt 2 else 0.
Proof.
  intros size Hlen U1 U2 I1 I2 D.
  assert (Hpos : (0 < bufferSize dur)%nat).
  { destruct U1 as [Hb _]. destruct I1 as [H0 H1].
    rewrite Hb, repeat_length in H1. fold size. lia. }
  rewrite (@accumulate_some [c1; c2] dur Hpos). fold size.
  cbn [fold_left List.length]. unfold mixClip.
  eexists. eexists. split; [reflexivity|]. split.
  - now rewrite !mixInto_length, repeat_length.
  - intros k Hk.
    rewrite mixInto_nth
      by (now rewrite mixInto_length, repeat_length).
    rewrite mixInto_nth by (now rewrite repeat_length).
    rewrite nth_repeat.
    rewrite (unitClip_term k U1), (unitClip_term k U2).
    assert (Hx : placedAt c1 k && placedAt c2 k = false).
    { unfold placedAt. unfold disjointClips in D.
      destruct (Z.leb_spec (startSampleOf c1) (Z.of_nat k));
        destruct (Z.leb_spec (startSampleOf c2) (Z.of_nat k));
        destruct (Z.ltb_spec (Z.of_nat k)
                    (startSampleOf c1 + Z.of_nat (List.length (buffer c1))));
        destruct (Z.ltb_spec (Z.of_nat k)
                    (startSampleOf c2 + Z.of_nat (List.length (buffer c2))));
        cbn [andb]; try reflexivity; lia. }
    destruct (placedAt c1 k), (placedAt c2 k); cbn [orb];
      try discriminate Hx; lra.
Qed.

(** The clips of the example occupy the indices 0, 1 and 5, 6 of a
    buffer of twelve samples. *)
Lemma accumulate_two_unit_clips_witness :
  exists out tl,
    accumulate [firstUnit; secondUnit] twelveSamples = Some (out, tl)
    /\ List.length out = 12%nat
    /\ nth 0 out 0 = 1 / sqrt 2 /\ nth 1 out 0 = 1 / sqrt 2
    /\ nth 2 out 0 = 0 /\ nth 4 out 0 = 0
    /\ nth 5 out 0 = 1 / sqrt 2 /\ nth 6 out 0 = 1 / sqrt 2
    /\ nth 7 out 0 = 0 /\ nth 11 out 0 = 0.
Proof.
  destruct (@accumulate_two_unit_clips firstUnit secondUnit twelveSamples 2%nat)
    as (out & tl & E & Hlen & H).
  - lia.
  - split; reflexivity.
  - split; [reflexivity|exact I].
  - split; vm_compute; discriminate.
  - split; vm_compute; discriminate.
  - left. vm_compute. discriminate.
  - assert (Hs : bufferSize twelveSamples = 12%nat) by (vm_compute; reflexivity).
    rewrite Hs in *.
    exists out, tl. split; [exact E|]. split; [exact Hlen|].
    repeat split; rewrite H by lia; reflexivity.
Defined.

(** *** The peak analyzer *)

Lemma peakAndSum_silence data :
  Forall (eq 0) data -> peakAndSum data = (0, 0).
Proof.
  unfold peakAndSum. induction 1 as [|x l Hx Hl IH]; [reflexivity|].
  subst x. cbn [fold_left].
  replace (Rmax 0 (Rabs 0)) with 0
    by (rewrite Rabs_R0; symmetry; apply Rmax_left; lra).
  replace (0 + Rabs 0 * Rabs 0) with 0 by (rewrite Rabs_R0; ring).
  exact IH.
Qed.

(** C10.  On a non-empty clip of zeros the analysis is peak 0, rms 0
    and recommended gain 1.5: the quotient 0.95 / 0 is +Infinity, not
    a fault, and [Math.min] with 1.5 brings it back. *)
Theorem analyzeAudioPeaks_silence data speaker :
  data <> [] -> Forall (eq 0) data ->
  analyzeClip data = mkAnalysis (Fin 0) (Fin 0) (Fin (15 / 10))
  /\ mapGet speaker (analyzeAudioPeaks [(data, speaker)])
     = Some (mkAnalysis (Fin 0) (Fin 0) (Fin (15 / 10))).
Proof.
  intros Hne Hz.
  assert (E : analyzeClip data = mkAnalysis (Fin 0) (Fin 0) (Fin (15 / 10))).
  { unfold analyzeClip. rewrite (peakAndSum_silence Hz).
    assert (Hlen : INR (List.length data) <> 0).
    { apply not_0_INR. destruct data; [congruence|discriminate]. }
    assert (Hrms : jsqrt (jdiv (Fin 0) (Fin (INR (List.length data)))) = Fin 0).
    { unfold jdiv. destruct (Req_dec_T _ 0) as [H0|_]; [contradiction|].
      unfold jsqrt. destruct (Rlt_dec _ 0) as [Hlt|_].
      - exfalso. unfold Rdiv in Hlt. rewrite Rmult_0_l in Hlt. lra.
      - f_equal. unfold Rdiv. rewrite Rmult_0_l. apply sqrt_0. }
    rewrite Hrms. cbn [jmax].
    replace (Rmax 0 0) with 0 by (symmetry; apply Rmax_left; lra).
    unfold jdiv.
    destruct (Req_dec_T 0 0) as [_|H0]; [|contradiction].
    destruct (Req_dec_T (95 / 100) 0) as [H1|_]; [lra|].
    destruct (Rlt_dec 0 (95 / 100)) as [_|H2]; [|lra].
    reflexivity. }
  split; [exact E|].
  unfold analyzeAudioPeaks. cbn [fold_left mapSet mapGet].
  rewrite String.eqb_refl, E. reflexivity.
Qed.

Lemma analyzeAudioPeaks_silence_witness :
  analyzeClip [0; 0; 0] = mkAnalysis (Fin 0) (Fin 0) (Fin (15 / 10))
  /\ mapGet "A"%string (analyzeAudioPeaks [([0; 0; 0], "A"%string)])
     = Some (mkAnalysis (Fin 0) (Fin 0) (Fin (15 / 10))).
Proof.
  apply (@analyzeAudioPeaks_silence [0; 0; 0] "A"%string).
  - discriminate.
  - repeat constructor.
Defined.

(** *** Size of the result, silence *)

Lemma softLimit_0 : softLimit 0 = 0.
Proof. apply softLimit_untouched. rewrite Rabs_R0. lra. Qed.

Lemma compressFrom_empty_timeline l : forall i, compressFrom [] i l = l.
Proof.
  induction l as [|s l IH]; intro i; [reflexivity|].
  cbn [compressFrom]. rewrite IH. f_equal.
Qed.

(** X6.  When [ceil(totalDuration * 24000)], taken on the double
    product, is at least 1, the call returns a buffer of that many
    samples whatever the clips are, and mixing no clip at all gives
    that many zeros.  When it is 0, as for a duration of 0, the
    allocation is refused and the call raises, whatever the clips. *)
Theorem mixAudioBuffers_size_and_silence buffers d :
  ((0 < bufferSize d)%nat ->
   (exists out,
      mixAudioBuffers buffers d = Some out
      /\ List.length out = bufferSize d)
   /\ mixAudioBuffers [] d = Some (repeat 0 (bufferSize d)))
  /\ (Qceiling (fmul d targetSampleRate) = 0%Z ->
      mixAudioBuffers buffers d = None).
Proof.
  split.
  - intro Hpos. split.
    + pose proof (@accumulate_some buffers d Hpos) as E.
      destruct (fold_left _ buffers _) as [out tl] eqn:Ef in E.
      eexists. split; [apply (@mixAudioBuffers_some _ _ _ _ E)|].
      rewrite processed_length.
      change out with (fst (out, tl)). rewrite <- Ef.
      rewrite fold_mixClip_length. cbn [fst]. apply repeat_length.
    + pose proof (@accumulate_some [] d Hpos) as E. cbn [fold_left] in E.
      rewrite (@mixAudioBuffers_some _ _ _ _ E).
      unfold compressOverlapRegions, applySoftLimiter.
      rewrite compressFrom_empty_timeline, map_repeat, softLimit_0.
      reflexivity.
  - intro H0. unfold mixAudioBuffers.
    rewrite accumulate_none by lia. reflexivity.
Qed.

Lemma mixAudioBuffers_size_and_silence_witness :
  (exists out,
     mixAudioBuffers [firstUnit; secondUnit] twelveSamples = Some out
     /\ List.length out = 12%nat)
  /\ mixAudioBuffers [firstUnit; secondUnit] 0 = None.
Proof.
  split.
  - apply (proj1 (mixAudioBuffers_size_and_silence
                    [firstUnit; secondUnit] twelveSamples)).
    vm_compute. lia.
  - apply (proj2 (mixAudioBuffers_size_and_silence [firstUnit; secondUnit] 0)).
    vm_compute. reflexivity.
Defined.

(** *** Accumulation as a sum *)

Lemma calculateNormalizedGain_quotient n v :
  calculateNormalizedGain n v
  = match v with Some x => x | None => 1 end / sqrt (INR n).
Proof. unfold calculateNormalizedGain, Rdiv. ring. Qed.

Lemma mixClip_nth n c out tl k :
  (k < List.length out)%nat ->
  nth k (fst (mixClip n (out, tl) c)) 0 = nth k out 0 + contribution n c k.
Proof.
  intro Hk. unfold mixClip. cbn [fst].
  rewrite mixInto_nth by exact Hk.
  unfold contribution, placedAt.
  now rewrite !Z.add_0_r, calculateNormalizedGain_quotient.
Qed.

Lemma fold_mixClip_nth n k cs : forall out tl,
  (k < List.length out)%nat ->
  nth k (fst (fold_left (mixClip n) cs (out, tl))) 0
  = fold_left (fun acc c => acc + contribution n c k) cs (nth k out 0).
Proof.
  induction cs as [|c cs IH]; intros out tl Hk; [reflexivity|].
  cbn [fold_left].
  destruct (mixClip n (out, tl) c) as [out' tl'] eqn:E.
  assert (Hout : out' = fst (mixClip n (out, tl) c)) by now rewrite E.
  rewrite IH.
  - now rewrite Hout, mixClip_nth.
  - rewrite Hout. unfold mixClip. cbn [fst]. now rewrite mixInto_length.
Qed.

(** X7.  When the buffer is allocated, the accumulation step returns;
    the sample at an index of the buffer is then the sum, taken in the
    order of the clip list from zero, of what each clip puts there: its
    source sample that lands on the index, times [volume / sqrt(N)]
    with [N] the number of clips in the call, and nothing for a clip
    that does not reach the index.  The timeline holds one entry per
    clip, in order. *)
Theorem accumulate_is_sum buffers d :
  (0 < bufferSize d)%nat ->
  exists out,
    accumulate buffers d = Some (out, map channelOf buffers)
    /\ List.length out = bufferSize d
    /\ forall k, (k < bufferSize d)%nat ->
         nth k out 0
         = fold_left
             (fun acc c => acc + contribution (List.length buffers) c k)
             buffers 0.
Proof.
  intro Hpos. rewrite (@accumulate_some buffers d Hpos).
  set (st := fold_left _ buffers _).
  exists (fst st). split; [|split].
  - assert (Hs : snd st = map channelOf buffers)
      by (unfold st; apply fold_mixClip_snd).
    rewrite <- Hs. now destruct st.
  - unfold st. rewrite fold_mixClip_length. cbn [fst]. apply repeat_length.
  - intros k Hk. unfold st.
    rewrite fold_mixClip_nth by (now rewrite repeat_length).
    now rewrite nth_repeat.
Qed.

(** Three clips in twelve samples: a loud and a quiet one on sample 0,
    where 4 / sqrt 3 and 0.5 / sqrt 3 add up, and a unit clip on the
    samples 5 and 6. *)
Lemma accumulate_is_sum_witness :
  exists out,
    accumulate [loudClip; quietClip; secondUnit] twelveSamples
    = Some (out, [mkChannel 0 1 "A"; mkChannel 0 1 "A"; mkChannel 5 7 "B"])
    /\ List.length out = 12%nat
    /\ nth 0 out 0 = 9 / 2 / sqrt 3
    /\ nth 1 out 0 = 0
    /\ nth 5 out 0 = 1 / sqrt 3
    /\ nth 6 out 0 = 1 / sqrt 3
    /\ nth 7 out 0 = 0.
Proof.
  assert (Hpos : (0 < bufferSize twelveSamples)%nat) by (vm_compute; lia).
  destruct (@accumulate_is_sum [loudClip; quietClip; secondUnit]
              twelveSamples Hpos) as (out & E & Hlen & H).
  assert (Hs : bufferSize twelveSamples = 12%nat) by (vm_compute; reflexivity).
  rewrite Hs in *.
  assert (H3 : 0 < sqrt 3) by (apply sqrt_lt_R0; lra).
  exists out. split; [exact E|]. split; [exact Hlen|].
  repeat split; rewrite H by lia; mix_eval;
    replace (INR 3) with 3 by (cbn [INR]; lra); field; lra.
Defined.

(** *** Magnitude and sign through the limiter and the compressor *)

(** X8.  The limiter multiplies every sample by a positive gain, so the
    sign is kept and only zero gives zero; the magnitude of the result
    depends on the magnitude of the sample alone: unchanged up to 0.75,
    multiplied by [1 + 11 k^2] in the knee ([k] running from 0 to 1/2
    across it), and [0.8 + (a - 0.8) / 12] from 0.8 on. *)
Theorem softLimit_magnitude_and_sign s :
  Rabs (softLimit s) = limitedMagnitude (Rabs s)
  /\ exists gain, 0 < gain /\ softLimit s = s * gain.
Proof.
  split; [|apply softLimit_sign].
  unfold limitedMagnitude.
  destruct (Rle_dec (Rabs s) (3 / 4)) as [H|H].
  - now rewrite softLimit_untouched.
  - destruct (Rlt_dec (Rabs s) (8 / 10)) as [Hk|Hk].
    + destruct (@softLimit_knee s) as [E _]; [lra|].
      rewrite E, Rabs_mult. f_equal. apply Rabs_pos_eq. nra.
    + destruct (@softLimit_hard s) as [_ E]; [lra|]. exact E.
Qed.

(** X9.  The overlap compressor never flips a sign; the magnitude it
    returns is the input's, except at an index covered by more than one
    clip where a magnitude [a] above 0.5 becomes [0.5 + (a - 0.5) / 4].
    So it never raises a magnitude. *)
Theorem compressSample_magnitude_and_sign tl i s :
  Rabs (compressSample tl i s)
  = compressedMagnitude (overlappingChannels tl i) (Rabs s)
  /\ 0 <= s * compressSample tl i s
  /\ Rabs (compressSample tl i s) <= Rabs s.
Proof.
  split; [|split; [|apply compressSample_le]].
  - apply compressSample_abs.
  - unfold compressSample, overlapThreshold, overlapRatio.
    destruct (1 <? _)%nat; [|nra].
    destruct (Rlt_dec _ _) as [H|_]; [|nra].
    set (a := Rabs s) in *.
    assert (Hs : s * (s / a * (5 / 10 + (a - 5 / 10) / 4))
                 = (s * s) * (/ a * (5 / 10 + (a - 5 / 10) / 4)))
      by (field; lra).
    rewrite Hs. apply Rmult_le_pos; [nra|].
    apply Rmult_le_pos; [|lra].
    apply Rlt_le, Rinv_0_lt_compat. lra.
Qed.

(** *** The peak analyzer on live signals *)

Lemma peakAndSum_fold data : forall p0 s0,
  0 <= p0 ->
  let r := fold_left
             (fun '(peak, sum) sample =>
                let absSample := Rabs sample in
                (Rmax peak absSample, sum + absSample * absSample))
             data (p0, s0) in
  p0 <= fst r
  /\ (forall x, In x data -> Rabs x <= fst r)
  /\ s0 <= snd r
  /\ snd r - s0 <= INR (List.length data) * (fst r * fst r).
Proof.
  induction data as [|x data IH]; intros p0 s0 Hp r.
  - cbn in r. unfold r. cbn [fst snd List.length INR In].
    repeat split; try lra. intros x [].
  - unfold r. cbn [fold_left]. clear r.
    assert (Hp' : 0 <= Rmax p0 (Rabs x)).
    { eapply Rle_trans; [exact Hp|apply Rmax_l]. }
    specialize (IH (Rmax p0 (Rabs x)) (s0 + Rabs x * Rabs x) Hp').
    cbv zeta in IH.
    set (r := fold_left _ data _) in *.
    destruct IH as (H1 & H2 & H3 & H4).
    pose proof (Rmax_l p0 (Rabs x)). pose proof (Rmax_r p0 (Rabs x)).
    pose proof (Rabs_pos x).
    repeat split.
    + lra.
    + intros y [<-|Hy]; [lra|now apply H2].
    + nra.
    + cbn [List.length]. rewrite S_INR.
      assert (Rabs x * Rabs x <= fst r * fst r) by nra.
      nra.
Qed.

(** X10.  For a clip with at least one non-zero sample the analysis is
    finite: [peak] bounds every sample's magnitude, [rms] lies between
    0 and [peak], and the recommended gain is [min(0.95 / peak, 1.5)],
    so that applying it leaves every sample at 0.95 or below. *)
Theorem analyzeClip_live data :
  (exists x, In x data /\ x <> 0) ->
  exists pk rm,
    analyzeClip data
    = mkAnalysis (Fin pk) (Fin rm) (Fin (Rmin (95 / 100 / pk) (15 / 10)))
    /\ 0 <= rm <= pk
    /\ forall x, In x data ->
         Rabs x <= pk
         /\ Rabs (x * Rmin (95 / 100 / pk) (15 / 10)) <= 95 / 100.
Proof.
  intros (x0 & Hin & Hx0).
  pose proof (@peakAndSum_fold data 0 0 (Rle_refl 0)) as H. cbv zeta in H.
  unfold analyzeClip, peakAndSum.
  destruct (fold_left _ data (0, 0)) as [pk sum]. cbn [fst snd] in H.
  destruct H as (_ & Hpk & Hsum & Hle).
  assert (Hpos : 0 < pk).
  { pose proof (Hpk x0 Hin). pose proof (Rabs_pos_lt x0 Hx0). lra. }
  assert (Hn : 0 < INR (List.length data)).
  { apply lt_0_INR. destruct data; [destruct Hin|cbn; lia]. }
  assert (Hq : 0 <= sum / INR (List.length data) <= pk * pk).
  { split.
    - apply Rmult_le_pos; [lra|]. apply Rlt_le, Rinv_0_lt_compat. exact Hn.
    - apply Rmult_le_reg_r with (r := INR (List.length data)); [exact Hn|].
      unfold Rdiv. rewrite Rmult_assoc, Rinv_l by lra. lra. }
  assert (Hrm : 0 <= sqrt (sum / INR (List.length data)) <= pk).
  { split; [apply sqrt_pos|].
    rewrite <- (sqrt_square pk) by lra. apply sqrt_le_1_alt. lra. }
  exists pk, (sqrt (sum / INR (List.length data))).
  split; [|split; [exact Hrm|]].
  - assert (E : jsqrt (jdiv (Fin sum) (Fin (INR (List.length data))))
                = Fin (sqrt (sum / INR (List.length data)))).
    { unfold jdiv.
      destruct (Req_dec_T (INR (List.length data)) 0) as [E|_]; [lra|].
      unfold jsqrt.
      destruct (Rlt_dec (sum / INR (List.length data)) 0) as [Hneg|_];
        [lra|reflexivity]. }
    rewrite E. cbn [jmax]. rewrite Rmax_left by lra.
    unfold jdiv. destruct (Req_dec_T pk 0) as [E0|_]; [lra|].
    reflexivity.
  - intros x Hx. pose proof (Hpk x Hx) as Hxp. split; [exact Hxp|].
    assert (Hg : 0 < 95 / 100 / pk).
    { apply Rmult_lt_0_compat; [lra|]. now apply Rinv_0_lt_compat. }
    pose proof (Rmin_l (95 / 100 / pk) (15 / 10)) as Hl.
    assert (Hm : 0 < Rmin (95 / 100 / pk) (15 / 10)).
    { apply Rmin_glb_lt; lra. }
    rewrite Rabs_mult, (Rabs_pos_eq (Rmin _ _)) by lra.
    pose proof (Rabs_pos x).
    apply Rle_trans with (pk * (95 / 100 / pk)); [nra|].
    right. field. lra.
Qed.

Lemma analyzeClip_live_witness :
  (exists x, In x twoTone /\ x <> 0)
  /\ exists pk rm,
       analyzeClip twoTone
       = mkAnalysis (Fin pk) (Fin rm) (Fin (Rmin (95 / 100 / pk) (15 / 10)))
       /\ 0 <= rm <= pk
       /\ forall x, In x twoTone ->
            Rabs x <= pk
            /\ Rabs (x * Rmin (95 / 100 / pk) (15 / 10)) <= 95 / 100.
Proof.
  assert (H : exists x, In x twoTone /\ x <> 0).
  { exists (1 / 2). split; [left; reflexivity|lra]. }
  split; [exact H|]. exact (@analyzeClip_live twoTone H).
Defined.

(** X11.  The empty clip is analysed without a fault, as peak 0 and
    NaN for both the rms (0 / 0) and the recommended gain: the cap at
    1.5 does not absorb a NaN. *)
Theorem analyzeClip_empty :
  analyzeClip [] = mkAnalysis (Fin 0) NaN NaN.
Proof.
  unfold analyzeClip, peakAndSum. cbn [fold_left List.length INR].
  assert (E : jdiv (Fin 0) (Fin 0) = NaN).
  { unfold jdiv. destruct (Req_dec_T 0 0) as [_|H]; [|contradiction].
    reflexivity. }
  rewrite E. reflexivity.
Qed.

Lemma mapGet_mapSet {V} k k' (v : V) m :
  mapGet k (mapSet k' v m)
  = if String.eqb k k' then Some v else mapGet k m.
Proof.
  induction m as [|[k0 v0] m IH]; cbn [mapSet mapGet].
  - reflexivity.
  - destruct (String.eqb_spec k' k0) as [->|Hne]; cbn [mapGet].
    + destruct (String.eqb k k0); reflexivity.
    + rewrite IH. destruct (String.eqb_spec k k0) as [->|Hk].
      * destruct (String.eqb_spec k0 k'); [congruence|reflexivity].
      * reflexivity.
Qed.

Lemma analyzeAudioPeaks_fold speaker buffers : forall m,
  mapGet speaker
    (fold_left
       (fun analysis '(data, speakerId) =>
          mapSet speakerId (analyzeClip data) analysis)
       buffers m)
  = match lastDataOf speaker buffers with
    | Some d => Some (analyzeClip d)
    | None => mapGet speaker m
    end.
Proof.
  induction buffers as [|[data sp] buffers IH]; intro m; [reflexivity|].
  cbn [fold_left lastDataOf]. rewrite IH.
  destruct (lastDataOf speaker buffers); [reflexivity|].
  rewrite mapGet_mapSet. destruct (String.eqb speaker sp); reflexivity.
Qed.

(** X12.  The returned map holds, for a speaker, the analysis of the
    last buffer given for that speaker, and nothing for a speaker with
    no buffer: earlier buffers of the same speaker are overwritten, not
    merged. *)
Theorem analyzeAudioPeaks_last_wins buffers speaker :
  mapGet speaker (analyzeAudioPeaks buffers)
  = option_map analyzeClip (lastDataOf speaker buffers).
Proof.
  unfold analyzeAudioPeaks. rewrite analyzeAudioPeaks_fold.
  destruct (lastDataOf speaker buffers); reflexivity.
Qed.

End MixerProofs.
